(** * Material interaction stage of the CUDA path tracer (src/interactions.h)

    Shallow embedding of [calculateRandomDirectionInHemisphere], [dielectric]
    and [scatterRay].

    Numbers: the source computes on [float].  Here every [float] is a real
    number of [R] and every operation is the exact one (rounding, infinities
    and NaN are not modelled).  The comparisons of the source are the
    decidable comparisons of [R], so each definition branches exactly where
    the source branches.  Where the source divides by zero the model follows
    the convention of the Standard Library ([/ 0 = 0]); no theorem below
    relies on the value of such a quotient except to observe that a vector
    has no unit length.

    State: [scatterRay] mutates its [PathSegment] and its random engine in
    place; the model passes both explicitly and returns the updated pair. *)

From Stdlib Require Import Reals Lra Psatz ZArith.

Open Scope R_scope.

(** ** The vector-math library (glm) used by the source

    GLM is a library of its own; the operations below are written after its
    definitions ([func_geometric.inl], [func_common.inl]). *)

Module glm.

Record vec3 : Type := Vec3 { x : R; y : R; z : R }.

(** [glm::vec3(s)]: the three components equal to [s]. *)
Definition splat (s : R) : vec3 := Vec3 s s s.

(** [a + b] *)
Definition add (a b : vec3) : vec3 := Vec3 (x a + x b) (y a + y b) (z a + z b).

(** [a - b] *)
Definition sub (a b : vec3) : vec3 := Vec3 (x a - x b) (y a - y b) (z a - z b).

(** [-a] *)
Definition neg (a : vec3) : vec3 := Vec3 (- x a) (- y a) (- z a).

(** [s * a] and [a * s] for a scalar [s] *)
Definition scale (s : R) (a : vec3) : vec3 := Vec3 (s * x a) (s * y a) (s * z a).

(** [a * b], componentwise (what [*=] does on a colour) *)
Definition mul (a b : vec3) : vec3 := Vec3 (x a * x b) (y a * y b) (z a * z b).

Definition dot (a b : vec3) : R := x a * x b + y a * y b + z a * z b.

Definition cross (a b : vec3) : vec3 :=
  Vec3 (y a * z b - y b * z a) (z a * x b - z b * x a) (x a * y b - x b * y a).

Definition length (a : vec3) : R := sqrt (dot a a).

Definition inversesqrt (s : R) : R := 1 / sqrt s.

(** [glm::normalize(v) = v * inversesqrt(dot(v, v))] *)
Definition normalize (a : vec3) : vec3 := scale (inversesqrt (dot a a)) a.

(** [glm::reflect(I, N) = I - N * dot(N, I) * 2] *)
Definition reflect (I N : vec3) : vec3 := sub I (scale (dot N I * 2) N).

(** [glm::refract(I, N, eta)]: the zero vector when the radicand [k] is
    negative (total internal reflection), the bent direction otherwise. *)
Definition refract (I N : vec3) (eta : R) : vec3 :=
  let dotValue := dot N I in
  let k := 1 - eta * eta * (1 - dotValue * dotValue) in
  if Rge_dec k 0
  then sub (scale eta I) (scale (eta * dotValue + sqrt k) N)
  else splat 0.

(** [glm::clamp(v, lo, hi) = min(max(v, lo), hi)] *)
Definition clamp (v lo hi : R) : R := Rmin (Rmax v lo) hi.

End glm.

Import glm.

(** ** Constants and records the source takes from other headers *)

(** Modelled from the spec: the macro [TWO_PI] of the utilities header, which
    is not part of the source at hand; the spec has [phi = 2 pi u2]. *)
Definition TWO_PI : R := 2 * PI.

(** Modelled from the spec: the macro [SQRT_OF_ONE_THIRD] of the utilities
    header; the spec has the components tested against [sqrt(1/3)]. *)
Definition SQRT_OF_ONE_THIRD : R := sqrt (1 / 3).

(** Modelled from the spec: the struct [Ray] of the scene header (origin
    point and direction). *)
Module Ray.
Record t : Type := Build { origin : vec3; direction : vec3 }.
End Ray.

(** Modelled from the spec: the struct [Material] of the scene header
    (diffuse colour, specular colour, the two flags, index of refraction,
    emittance).  The source reads [m.specular.color], [m.hasReflective],
    [m.hasRefractive], [m.indexOfRefraction] and [m.emittance]. *)
Module Specular.
Record t : Type := Build { exponent : R; color : vec3 }.
End Specular.

Module Material.
Record t : Type := Build {
  color : vec3;
  specular : Specular.t;
  hasReflective : bool;
  hasRefractive : bool;
  indexOfRefraction : R;
  emittance : R
}.
End Material.

(** Modelled from the spec: the struct [PathSegment] of the scene header.
    The spec calls the colour [throughput] and the flag [terminated]; the
    source writes [pathSegment.color] and [pathSegment.dead]. *)
Module PathSegment.
Record t : Type := Build {
  ray : Ray.t;
  color : vec3;
  pixelIndex : Z;
  remainingBounces : Z;
  dead : bool
}.

Definition set_dead (p : t) (b : bool) : t :=
  Build (ray p) (color p) (pixelIndex p) (remainingBounces p) b.

Definition set_color (p : t) (c : vec3) : t :=
  Build (ray p) c (pixelIndex p) (remainingBounces p) (dead p).

Definition set_ray (p : t) (r : Ray.t) : t :=
  Build r (color p) (pixelIndex p) (remainingBounces p) (dead p).
End PathSegment.

(** The random engine, seen through [uniform_real_distribution<float>(0, 1)]:
    the sequence of draws it will deliver and the number already consumed. *)
Module Rng.
Record t : Type := Build { draws : nat -> R; consumed : nat }.

(** [u01(rng)]: the next draw, and the engine advanced by one. *)
Definition u01 (rng : t) : R * t :=
  (draws rng (consumed rng), Build (draws rng) (S (consumed rng))).
End Rng.

(** ** calculateRandomDirectionInHemisphere *)

(** Lines 24-31: the axis that is not the normal. *)
Definition directionNotNormal (normal : vec3) : vec3 :=
  if Rlt_dec (Rabs (x normal)) SQRT_OF_ONE_THIRD then Vec3 1 0 0
  else if Rlt_dec (Rabs (y normal)) SQRT_OF_ONE_THIRD then Vec3 0 1 0
  else Vec3 0 0 1.

Definition perpendicularDirection1 (normal : vec3) : vec3 :=
  normalize (cross normal (directionNotNormal normal)).

Definition perpendicularDirection2 (normal : vec3) : vec3 :=
  normalize (cross normal (perpendicularDirection1 normal)).

Definition calculateRandomDirectionInHemisphere
    (normal : vec3) (rng : Rng.t) : vec3 * Rng.t :=
  let (u1, rng1) := Rng.u01 rng in
  let up := sqrt u1 in
  let over := sqrt (1 - up * up) in
  let (u2, rng2) := Rng.u01 rng1 in
  let around := u2 * TWO_PI in
  (add (add (scale up normal)
            (scale (cos around * over) (perpendicularDirection1 normal)))
       (scale (sin around * over) (perpendicularDirection2 normal)),
   rng2).

(** ** dielectric *)

Definition dielectric (cosThetaI etaI etaT : R) : R :=
  let cosThetaI := clamp cosThetaI (-1) 1 in
  let sinThetaI := sqrt (Rmax 0 (1 - cosThetaI * cosThetaI)) in
  let sinThetaT := etaI / etaT * sinThetaI in
  if Rge_dec sinThetaT 1 then 1
  else
    let cosThetaT := sqrt (Rmax 0 (1 - sinThetaT * sinThetaT)) in
    let Rparl := ((etaT * cosThetaI) - (etaI * cosThetaT))
                 / ((etaT * cosThetaI) + (etaI * cosThetaT)) in
    let Rperp := ((etaI * cosThetaI) - (etaT * cosThetaT))
                 / ((etaI * cosThetaI) + (etaT * cosThetaT)) in
    (Rparl * Rparl + Rperp * Rperp) / 2.

(** ** scatterRay *)

(** Lines 106-117: the refracted direction and the Fresnel term [f], on the
    side of the surface the ray comes from. *)
Definition refractedAndFresnel (normal wo : vec3) (m : Material.t) : vec3 * R :=
  let cosThetaI := dot normal wo in
  if Rlt_dec cosThetaI 0
  then (refract wo normal (1 / Material.indexOfRefraction m),
        dielectric (- cosThetaI) 1 (Material.indexOfRefraction m))
  else (refract wo (neg normal) (Material.indexOfRefraction m),
        dielectric cosThetaI (Material.indexOfRefraction m) 1).

(** Lines 104-134: the branch on the kind of material; gives [wi], the new
    colour and the engine after the draws of the branch. *)
Definition scatterBranch (pathSegment : PathSegment.t) (normal wo : vec3)
    (m : Material.t) (rng : Rng.t) : vec3 * vec3 * Rng.t :=
  let color := PathSegment.color pathSegment in
  let specular := Specular.color (Material.specular m) in
  if Material.hasRefractive m then
    let cosThetaI := dot normal wo in
    let (wi, f) := refractedAndFresnel normal wo m in
    if Rgt_dec f 1
    then (reflect wo normal,
          mul color (scale (Rmax 1 (f / Rabs cosThetaI)) specular),
          rng)
    else (wi,
          mul color (scale (Rmax 1 ((1 - f) / Rabs cosThetaI)) specular),
          rng)
  else if Material.hasReflective m then
    (reflect wo normal, mul color specular, rng)
  else
    let (wi, rng') := calculateRandomDirectionInHemisphere normal rng in
    (wi, color, rng').

Definition scatterRay (pathSegment : PathSegment.t) (intersect normal : vec3)
    (m : Material.t) (rng : Rng.t) (depth : Z) : PathSegment.t * Rng.t :=
  let wo := normalize (Ray.direction (PathSegment.ray pathSegment)) in
  if Rgt_dec (Material.emittance m) 0 then
    (PathSegment.set_dead pathSegment true, rng)
  else
    let '(wi, color', rng') := scatterBranch pathSegment normal wo m rng in
    (PathSegment.set_ray (PathSegment.set_color pathSegment color')
       (Ray.Build (add intersect (scale 0.0001 wi)) (normalize wi)),
     rng').

(** ** A concrete scatter call beyond the critical angle

    A ray leaving glass (index 3/2) along the unit direction (4/5, 3/5, 0)
    through a surface of normal (0, 1, 0): the cosine is 3/5, the sine 4/5,
    and [3/2 * 4/5 = 6/5 > 1]. *)

Definition glass : Material.t :=
  Material.Build (Vec3 1 1 1) (Specular.Build 0 (Vec3 1 1 1)) false true (3 / 2) 0.

Definition leavingGlass : PathSegment.t :=
  PathSegment.Build (Ray.Build (Vec3 0 (-1) 0) (Vec3 (4 / 5) (3 / 5) 0))
    (Vec3 1 1 1) 0 8 false.

Definition upNormal : vec3 := Vec3 0 1 0.

Definition hitPoint : vec3 := Vec3 0 0 0.

Definition zeroEngine : Rng.t := Rng.Build (fun _ => 0) 0.

(** A mirror and a matte material, and a ray that enters glass, for the
    concrete calls below. *)

Definition mirror : Material.t :=
  Material.Build (Vec3 1 1 1) (Specular.Build 0 (Vec3 (4 / 5) (4 / 5) (4 / 5)))
    true false 0 0.

Definition matte : Material.t :=
  Material.Build (Vec3 (1 / 2) (1 / 2) (1 / 2)) (Specular.Build 0 (Vec3 0 0 0))
    false false 0 0.

Definition enteringGlass : PathSegment.t :=
  PathSegment.Build (Ray.Build (Vec3 0 1 0) (Vec3 (4 / 5) (- (3 / 5)) 0))
    (Vec3 1 1 1) 0 8 false.

(** A colour with no negative component. *)
Definition nonneg (v : vec3) : Prop := 0 <= x v /\ 0 <= y v /\ 0 <= z v.

(** ** Real-number and vector facts used below *)

Lemma sqrt_eq_1_inv (a : R) : sqrt a = 1 -> a = 1.
Proof.
  intros H.
  destruct (Rle_lt_dec 0 a) as [Ha | Ha].
  - rewrite <- (sqrt_sqrt a Ha), H. ring.
  - rewrite (sqrt_neg_0 a) in H by lra. lra.
Qed.

Lemma sqrt_of_square (a b : R) : 0 <= b -> a = b * b -> sqrt a = b.
Proof. intros Hb ->. now apply sqrt_square. Qed.

Lemma clamp_nonneg (v hi : R) (lo : R) : 0 <= v -> 0 <= hi -> 0 <= clamp v lo hi.
Proof.
  intros Hv Hhi. unfold clamp, Rmin, Rmax.
  destruct (Rle_dec v lo); destruct (Rle_dec _ hi); lra.
Qed.

(** A quotient [(a - b) / (a + b)] of non-negative [a] and positive [b] has a
    square between 0 and 1: the shape of both Fresnel terms. *)
Lemma fresnel_term_square (a b : R) :
  0 <= a -> 0 < b ->
  0 <= ((a - b) / (a + b)) * ((a - b) / (a + b)) <= 1.
Proof.
  intros Ha Hb.
  assert (Hs : 0 < a + b) by lra.
  assert (Hi : 0 < / (a + b)) by now apply Rinv_0_lt_compat.
  assert (Hone : (a + b) * / (a + b) = 1) by (apply Rinv_r; lra).
  set (r := (a - b) / (a + b)).
  assert (Hlo : -1 <= r).
  { unfold r, Rdiv. replace (-1) with (- ((a + b) * / (a + b))) by lra. nra. }
  assert (Hhi : r <= 1).
  { unfold r, Rdiv. rewrite <- Hone. nra. }
  split; nra.
Qed.

(** The Fresnel term for a cosine on the incidence side. *)
Lemma dielectric_range (cosThetaI etaI etaT : R) :
  0 <= cosThetaI -> 0 < etaI -> 0 < etaT ->
  0 <= dielectric cosThetaI etaI etaT <= 1.
Proof.
  intros Hc HI HT. unfold dielectric.
  set (c := clamp cosThetaI (-1) 1).
  assert (Hc0 : 0 <= c) by (apply clamp_nonneg; lra).
  set (sI := sqrt (Rmax 0 (1 - c * c))).
  assert (HsI : 0 <= sI) by apply sqrt_pos.
  set (sT := etaI / etaT * sI).
  assert (HsT : 0 <= sT).
  { unfold sT. apply Rmult_le_pos; [|exact HsI].
    unfold Rdiv. apply Rmult_le_pos; [lra|].
    left. now apply Rinv_0_lt_compat. }
  destruct (Rge_dec sT 1) as [Hge | Hlt]; [lra|].
  assert (HsT1 : sT < 1) by lra.
  set (cT := sqrt (Rmax 0 (1 - sT * sT))).
  assert (HcT : 0 < cT).
  { unfold cT. apply sqrt_lt_R0. unfold Rmax.
    destruct (Rle_dec 0 (1 - sT * sT)); nra. }
  assert (H1 := fresnel_term_square (etaT * c) (etaI * cT)
                  (Rmult_le_pos _ _ (Rlt_le _ _ HT) Hc0)
                  (Rmult_lt_0_compat _ _ HI HcT)).
  assert (H2 := fresnel_term_square (etaI * c) (etaT * cT)
                  (Rmult_le_pos _ _ (Rlt_le _ _ HI) Hc0)
                  (Rmult_lt_0_compat _ _ HT HcT)).
  lra.
Qed.

(** Evaluation of [dielectric] at a cosine whose sines come out rational. *)
Lemma dielectric_neg_4_5 : dielectric (- (4 / 5)) 1 (39 / 25) = 13769 / 484.
Proof.
  unfold dielectric.
  assert (Hc : clamp (- (4 / 5)) (-1) 1 = - (4 / 5)).
  { unfold clamp, Rmin, Rmax.
    destruct (Rle_dec (- (4 / 5)) (-1)); destruct (Rle_dec _ 1); lra. }
  rewrite Hc.
  assert (HsI : sqrt (Rmax 0 (1 - - (4 / 5) * - (4 / 5))) = 3 / 5).
  { apply sqrt_of_square; [lra|]. unfold Rmax.
    destruct (Rle_dec 0 (1 - - (4 / 5) * - (4 / 5))); lra. }
  rewrite HsI.
  destruct (Rge_dec (1 / (39 / 25) * (3 / 5)) 1) as [H | H]; [lra|].
  assert (HcT : sqrt (Rmax 0 (1 - 1 / (39 / 25) * (3 / 5) * (1 / (39 / 25) * (3 / 5))))
                = 12 / 13).
  { apply sqrt_of_square; [lra|]. unfold Rmax.
    destruct (Rle_dec 0 _); lra. }
  rewrite HcT. field.
Qed.

(** ** The Fresnel evaluator *)

(** C3, as stated, fails: for a negative cosine the value leaves [0,1].
    Here [dielectric(-0.8, 1, 1.56) = 13769/484], about 28.4. *)
Lemma dielectric_negative_cosine_exceeds_1 :
  0 < 1 /\ 0 < 39 / 25 /\ ~ (0 <= dielectric (- (4 / 5)) 1 (39 / 25) <= 1).
Proof.
  rewrite dielectric_neg_4_5. repeat split; try lra.
Qed.

(** C3 (amended): for every cosine [cosThetaI >= 0], the cosine on the
    incidence side, and all indices [etaI > 0], [etaT > 0],
    [dielectric cosThetaI etaI etaT] lies in the closed interval [0,1]. *)
Theorem dielectric_unit_interval (cosThetaI etaI etaT : R) :
  0 <= cosThetaI -> 0 < etaI -> 0 < etaT ->
  0 <= dielectric cosThetaI etaI etaT /\ dielectric cosThetaI etaI etaT <= 1.
Proof. intros Hc HI HT. now apply dielectric_range. Qed.

Lemma dielectric_unit_interval_witness :
  0 <= dielectric 1 1 (3 / 2) /\ dielectric 1 1 (3 / 2) <= 1.
Proof. apply (dielectric_unit_interval 1 1 (3 / 2)); lra. Defined.

(** The guard of [dielectric]: a transmitted sine of 1 or more gives 1. *)
Lemma dielectric_guard (cosThetaI etaI etaT : R) :
  etaI / etaT
  * sqrt (Rmax 0 (1 - clamp cosThetaI (-1) 1 * clamp cosThetaI (-1) 1)) >= 1 ->
  dielectric cosThetaI etaI etaT = 1.
Proof.
  intros Hge. unfold dielectric.
  destruct (Rge_dec _ 1); [reflexivity | contradiction].
Qed.

Lemma clamp_inside (v : R) : -1 <= v <= 1 -> clamp v (-1) 1 = v.
Proof.
  intros H. unfold clamp, Rmin, Rmax.
  destruct (Rle_dec v (-1)); destruct (Rle_dec _ 1); lra.
Qed.

Lemma Rmax_0_of_nonneg (a : R) : 0 <= a -> Rmax 0 a = a.
Proof. intros H. unfold Rmax. destruct (Rle_dec 0 a); lra. Qed.

(** C4: whenever Snell's law gives [sinThetaT = etaI / etaT * sinThetaI >= 1]
    the evaluator returns 1 exactly; in particular
    [dielectric 0.3 1.5 1.0 = 1]. *)
Theorem dielectric_total_internal_reflection :
  (forall cosThetaI etaI etaT : R,
      let c := clamp cosThetaI (-1) 1 in
      let sinThetaI := sqrt (Rmax 0 (1 - c * c)) in
      etaI / etaT * sinThetaI >= 1 ->
      dielectric cosThetaI etaI etaT = 1)
  /\ dielectric (3 / 10) (3 / 2) 1 = 1.
Proof.
  split.
  - intros cosThetaI etaI etaT c sinThetaI Hge.
    apply dielectric_guard. exact Hge.
  - apply dielectric_guard.
    rewrite clamp_inside by lra.
    rewrite Rmax_0_of_nonneg by lra.
    assert (Hs : 9 / 10 <= sqrt (1 - 3 / 10 * (3 / 10))).
    { rewrite <- (sqrt_square (9 / 10)) by lra. apply sqrt_le_1_alt. lra. }
    lra.
Qed.

Lemma dielectric_total_internal_reflection_witness :
  dielectric 0 2 1 = 1.
Proof.
  apply (proj1 dielectric_total_internal_reflection 0 2 1).
  rewrite clamp_inside by lra.
  rewrite Rmax_0_of_nonneg by lra.
  replace (1 - 0 * 0) with 1 by lra.
  rewrite sqrt_1. lra.
Defined.

(** ** scatterRay: the branches *)

(** C6: for a material with [emittance > 0] the call sets the flag [dead]
    (the spec's [terminated]) and leaves the ray, origin and direction,
    unchanged; the colour and the random engine are untouched as well. *)
Theorem scatterRay_emissive
    (pathSegment : PathSegment.t) (intersect normal : vec3)
    (m : Material.t) (rng : Rng.t) (depth : Z) :
  Material.emittance m > 0 ->
  PathSegment.dead (fst (scatterRay pathSegment intersect normal m rng depth)) = true
  /\ PathSegment.ray (fst (scatterRay pathSegment intersect normal m rng depth))
     = PathSegment.ray pathSegment
  /\ PathSegment.color (fst (scatterRay pathSegment intersect normal m rng depth))
     = PathSegment.color pathSegment
  /\ snd (scatterRay pathSegment intersect normal m rng depth) = rng.
Proof.
  intros He. unfold scatterRay.
  destruct (Rgt_dec (Material.emittance m) 0) as [_ | Hn]; [|contradiction].
  simpl. repeat split.
Qed.

Lemma scatterRay_emissive_witness :
  PathSegment.dead
    (fst (scatterRay leavingGlass hitPoint upNormal
            (Material.Build (Vec3 1 1 1) (Specular.Build 0 (Vec3 0 0 0))
               false false 0 5)
            zeroEngine 0)) = true.
Proof.
  apply (scatterRay_emissive leavingGlass hitPoint upNormal
           (Material.Build (Vec3 1 1 1) (Specular.Build 0 (Vec3 0 0 0))
              false false 0 5) zeroEngine 0).
  simpl. lra.
Defined.

(** C7: for a material with [hasReflective] set, [hasRefractive] unset and
    [emittance <= 0], the call multiplies the colour componentwise by the
    specular colour and sets the direction to the normalized
    [reflect(wo, normal)], where [wo] is the normalized incoming direction. *)
Theorem scatterRay_mirror
    (pathSegment : PathSegment.t) (intersect normal : vec3)
    (m : Material.t) (rng : Rng.t) (depth : Z) :
  Material.hasReflective m = true ->
  Material.hasRefractive m = false ->
  Material.emittance m <= 0 ->
  let wo := normalize (Ray.direction (PathSegment.ray pathSegment)) in
  let out := fst (scatterRay pathSegment intersect normal m rng depth) in
  PathSegment.color out
  = mul (PathSegment.color pathSegment) (Specular.color (Material.specular m))
  /\ Ray.direction (PathSegment.ray out) = normalize (reflect wo normal).
Proof.
  intros Hrefl Hrefr He wo out. unfold out, scatterRay.
  destruct (Rgt_dec (Material.emittance m) 0) as [Hp | _]; [lra|].
  unfold scatterBranch. rewrite Hrefr, Hrefl. simpl. split; reflexivity.
Qed.

Lemma scatterRay_mirror_witness :
  PathSegment.color
    (fst (scatterRay leavingGlass hitPoint upNormal
            (Material.Build (Vec3 1 1 1)
               (Specular.Build 0 (Vec3 (4 / 5) (4 / 5) (4 / 5)))
               true false 0 0)
            zeroEngine 0))
  = mul (Vec3 1 1 1) (Vec3 (4 / 5) (4 / 5) (4 / 5)).
Proof.
  apply (scatterRay_mirror leavingGlass hitPoint upNormal
           (Material.Build (Vec3 1 1 1)
              (Specular.Build 0 (Vec3 (4 / 5) (4 / 5) (4 / 5)))
              true false 0 0) zeroEngine 0);
    simpl; try reflexivity; lra.
Defined.

(** C8: for a diffuse material ([emittance <= 0], neither flag set) the call
    leaves the colour exactly as it was (the diffuse colour of the material
    is not applied) and the direction is the normalized result of
    [calculateRandomDirectionInHemisphere normal rng], whose two draws are
    the only ones consumed. *)
Theorem scatterRay_diffuse
    (pathSegment : PathSegment.t) (intersect normal : vec3)
    (m : Material.t) (rng : Rng.t) (depth : Z) :
  Material.hasReflective m = false ->
  Material.hasRefractive m = false ->
  Material.emittance m <= 0 ->
  let out := scatterRay pathSegment intersect normal m rng depth in
  let sample := calculateRandomDirectionInHemisphere normal rng in
  PathSegment.color (fst out) = PathSegment.color pathSegment
  /\ Ray.direction (PathSegment.ray (fst out)) = normalize (fst sample)
  /\ snd out = snd sample.
Proof.
  intros Hrefl Hrefr He out sample. unfold out, sample, scatterRay.
  destruct (Rgt_dec (Material.emittance m) 0) as [Hp | _]; [lra|].
  unfold scatterBranch. rewrite Hrefr, Hrefl.
  destruct (calculateRandomDirectionInHemisphere normal rng) as [wi rng'].
  simpl. repeat split.
Qed.

Lemma scatterRay_diffuse_witness :
  PathSegment.color
    (fst (scatterRay leavingGlass hitPoint upNormal
            (Material.Build (Vec3 (1 / 2) (1 / 2) (1 / 2))
               (Specular.Build 0 (Vec3 0 0 0)) false false 0 0)
            zeroEngine 0))
  = Vec3 1 1 1.
Proof.
  apply (scatterRay_diffuse leavingGlass hitPoint upNormal
           (Material.Build (Vec3 (1 / 2) (1 / 2) (1 / 2))
              (Specular.Build 0 (Vec3 0 0 0)) false false 0 0) zeroEngine 0);
    simpl; try reflexivity; lra.
Defined.

(** ** scatterRay: the refractive branch *)

Lemma dot_neg_l (a b : vec3) : dot (neg a) b = - dot a b.
Proof. unfold dot, neg. simpl. ring. Qed.

Lemma normalize_zero : normalize (splat 0) = Vec3 0 0 0.
Proof. unfold normalize, scale, splat. simpl. f_equal; ring. Qed.

(** Under the call pattern of [scatterRay] the Fresnel term never exceeds 1. *)
Lemma refractedAndFresnel_le_1 (normal wo : vec3) (m : Material.t) :
  0 < Material.indexOfRefraction m ->
  snd (refractedAndFresnel normal wo m) <= 1.
Proof.
  intros Hior. unfold refractedAndFresnel.
  destruct (Rlt_dec (dot normal wo) 0) as [Hneg | Hpos]; simpl.
  - apply dielectric_range; lra.
  - apply dielectric_range; lra.
Qed.

(** C5: in the refractive branch [dielectric] is called with a non-negative
    first argument, so (for an index of refraction [> 0], as the data model
    has it) [f <= 1]: the branch [f > 1] is never taken, the refracted [wi]
    is kept and the colour is weighted by [max(1, (1 - f) / |cosThetaI|)].
    On either side of the surface, when the radicand of [refract] is
    negative (total internal reflection) this [wi] is the zero vector. *)
Theorem scatterRay_refractive_never_reflects
    (pathSegment : PathSegment.t) (intersect normal : vec3)
    (m : Material.t) (rng : Rng.t) (depth : Z) :
  Material.hasRefractive m = true ->
  Material.emittance m <= 0 ->
  0 < Material.indexOfRefraction m ->
  let wo := normalize (Ray.direction (PathSegment.ray pathSegment)) in
  let cosThetaI := dot normal wo in
  let wi := fst (refractedAndFresnel normal wo m) in
  let f := snd (refractedAndFresnel normal wo m) in
  let ior := Material.indexOfRefraction m in
  f <= 1
  /\ scatterRay pathSegment intersect normal m rng depth
     = (PathSegment.set_ray
          (PathSegment.set_color pathSegment
             (mul (PathSegment.color pathSegment)
                  (scale (Rmax 1 ((1 - f) / Rabs cosThetaI))
                         (Specular.color (Material.specular m)))))
          (Ray.Build (add intersect (scale 0.0001 wi)) (normalize wi)),
        rng)
  /\ (0 <= cosThetaI ->
      1 - ior * ior * (1 - cosThetaI * cosThetaI) < 0 ->
      wi = splat 0)
  /\ (cosThetaI < 0 ->
      1 - 1 / ior * (1 / ior) * (1 - cosThetaI * cosThetaI) < 0 ->
      wi = splat 0).
Proof.
  intros Hrefr He Hior wo cosThetaI wi f ior.
  assert (Hf : f <= 1) by (apply refractedAndFresnel_le_1; exact Hior).
  split; [exact Hf|]. split; [|split].
  - unfold scatterRay.
    destruct (Rgt_dec (Material.emittance m) 0) as [Hp | _]; [lra|].
    unfold scatterBranch. rewrite Hrefr. fold wo.
    unfold wi, f in *. fold cosThetaI.
    destruct (refractedAndFresnel normal wo m) as [wi0 f0]. simpl in *.
    destruct (Rgt_dec f0 1) as [Hgt | _]; [lra|]. reflexivity.
  - intros Hcos Hk. unfold wi, refractedAndFresnel. fold cosThetaI.
    destruct (Rlt_dec cosThetaI 0) as [Hlt | _]; [lra|]. simpl.
    unfold refract. rewrite dot_neg_l. fold cosThetaI. fold ior.
    destruct (Rge_dec (1 - ior * ior * (1 - - cosThetaI * - cosThetaI)) 0)
      as [Hge | _]; [nra | reflexivity].
  - intros Hcos Hk. unfold wi, refractedAndFresnel. fold cosThetaI.
    destruct (Rlt_dec cosThetaI 0) as [_ | Hge]; [|lra]. simpl.
    unfold refract. fold cosThetaI. fold ior.
    destruct (Rge_dec (1 - 1 / ior * (1 / ior) * (1 - cosThetaI * cosThetaI)) 0)
      as [Hge | _]; [lra | reflexivity].
Qed.

Lemma normalize_4_3_0 :
  normalize (Vec3 (4 / 5) (3 / 5) 0) = Vec3 (4 / 5) (3 / 5) 0.
Proof.
  unfold normalize, inversesqrt, scale, dot. simpl.
  match goal with |- context [sqrt ?a] =>
    rewrite (sqrt_of_square a 1) by lra end.
  f_equal; lra.
Qed.

Lemma refractedAndFresnel_leavingGlass :
  refractedAndFresnel upNormal (Vec3 (4 / 5) (3 / 5) 0) glass = (splat 0, 1).
Proof.
  unfold refractedAndFresnel, upNormal, glass, dot. simpl.
  destruct (Rlt_dec (0 * (4 / 5) + 1 * (3 / 5) + 0 * 0) 0) as [H | _]; [lra|].
  f_equal.
  - unfold refract, dot, neg. simpl.
    destruct (Rge_dec _ 0) as [H | _]; [lra | reflexivity].
  - replace (0 * (4 / 5) + 1 * (3 / 5) + 0 * 0) with (3 / 5) by lra.
    apply dielectric_guard.
    rewrite clamp_inside by lra.
    rewrite Rmax_0_of_nonneg by lra.
    rewrite (sqrt_of_square (1 - 3 / 5 * (3 / 5)) (4 / 5)) by lra.
    lra.
Qed.

(** The whole call at that input: [f = 1] is not [> 1], the zero vector of
    [refract] is kept and normalized, the colour is weighted by
    [max(1, 0 / (3/5)) = 1]. *)
Lemma scatterRay_leavingGlass :
  scatterRay leavingGlass hitPoint upNormal glass zeroEngine 0
  = (PathSegment.Build (Ray.Build (Vec3 0 0 0) (Vec3 0 0 0)) (Vec3 1 1 1) 0 8 false,
     zeroEngine).
Proof.
  unfold scatterRay.
  destruct (Rgt_dec (Material.emittance glass) 0) as [H | _]; [simpl in H; lra|].
  unfold scatterBranch.
  change (Material.hasRefractive glass) with true. cbv iota.
  change (Ray.direction (PathSegment.ray leavingGlass))
    with (Vec3 (4 / 5) (3 / 5) 0).
  rewrite normalize_4_3_0, refractedAndFresnel_leavingGlass.
  destruct (Rgt_dec 1 1) as [H | _]; [lra|].
  rewrite normalize_zero.
  unfold PathSegment.set_ray, PathSegment.set_color, leavingGlass, glass,
    hitPoint, upNormal, mul, scale, add, splat, dot. simpl.
  replace ((1 - 1) / Rabs (0 * (4 / 5) + 1 * (3 / 5) + 0 * 0)) with 0
    by (unfold Rdiv; ring).
  rewrite (Rmax_left 1 0) by lra.
  f_equal. f_equal; [f_equal; f_equal; ring | f_equal; ring].
Qed.

(** C1 at a ray beyond the critical angle: total internal reflection occurs
    ([f = 1], and [refract] yields the zero vector), yet the new direction
    is the zero vector and not [reflect(wo, normal) = (4/5, -3/5, 0)], and
    the colour (1,1,1) stays (1,1,1) where
    [specularColor * max(1, f / |cosThetaI|)] is (5/3, 5/3, 5/3). *)
Theorem scatterRay_critical_angle_no_reflection :
  let wo := normalize (Ray.direction (PathSegment.ray leavingGlass)) in
  let out := fst (scatterRay leavingGlass hitPoint upNormal glass zeroEngine 0) in
  let f := snd (refractedAndFresnel upNormal wo glass) in
  f = 1
  /\ fst (refractedAndFresnel upNormal wo glass) = splat 0
  /\ Ray.direction (PathSegment.ray out) = Vec3 0 0 0
  /\ normalize (reflect wo upNormal) = Vec3 (4 / 5) (- (3 / 5)) 0
  /\ PathSegment.color out = Vec3 1 1 1
  /\ mul (PathSegment.color leavingGlass)
         (scale (Rmax 1 (f / Rabs (dot upNormal wo)))
                (Specular.color (Material.specular glass)))
     = Vec3 (5 / 3) (5 / 3) (5 / 3).
Proof.
  intros wo out f. unfold out, f, wo.
  rewrite scatterRay_leavingGlass.
  change (Ray.direction (PathSegment.ray leavingGlass))
    with (Vec3 (4 / 5) (3 / 5) 0).
  rewrite normalize_4_3_0, refractedAndFresnel_leavingGlass. simpl.
  repeat split.
  - unfold normalize, inversesqrt, reflect, sub, scale, dot, upNormal. simpl.
    match goal with |- context [sqrt ?a] =>
      rewrite (sqrt_of_square a 1) by lra end.
    f_equal; lra.
  - unfold mul, scale, dot, upNormal. simpl.
    replace (0 * (4 / 5) + 1 * (3 / 5) + 0 * 0) with (3 / 5) by lra.
    rewrite Rabs_pos_eq by lra.
    rewrite (Rmax_right 1 (1 / (3 / 5))) by lra.
    f_equal; lra.
Qed.

(** C2 at the same ray: the direction written back is the zero vector, whose
    length is 0 and not 1. *)
Theorem scatterRay_critical_angle_not_unit :
  Material.emittance glass <= 0
  /\ length (Ray.direction (PathSegment.ray
       (fst (scatterRay leavingGlass hitPoint upNormal glass zeroEngine 0)))) = 0
  /\ length (Ray.direction (PathSegment.ray
       (fst (scatterRay leavingGlass hitPoint upNormal glass zeroEngine 0)))) <> 1.
Proof.
  rewrite scatterRay_leavingGlass. simpl.
  assert (H : length (Vec3 0 0 0) = 0).
  { unfold length, dot. simpl.
    rewrite (sqrt_of_square (0 * 0 + 0 * 0 + 0 * 0) 0) by lra. reflexivity. }
  rewrite H. repeat split; lra.
Qed.

Lemma scatterRay_refractive_never_reflects_witness :
  snd (refractedAndFresnel upNormal
         (normalize (Ray.direction (PathSegment.ray leavingGlass))) glass) <= 1.
Proof.
  assert (He : Material.emittance glass <= 0) by (simpl; lra).
  assert (Hi : 0 < Material.indexOfRefraction glass) by (simpl; lra).
  exact (proj1 (scatterRay_refractive_never_reflects
                  leavingGlass hitPoint upNormal glass zeroEngine 0
                  eq_refl He Hi)).
Defined.

(** ** The hemisphere sampler *)

Section VectorAlgebra.

Variables a b c : vec3.

(** Lagrange's identity. *)
Lemma cross_norm2 :
  dot (cross a b) (cross a b) = dot a a * dot b b - dot a b * dot a b.
Proof. unfold dot, cross. simpl. ring. Qed.

Lemma dot_cross_l : dot a (cross a b) = 0.
Proof. unfold dot, cross. simpl. ring. Qed.

Lemma dot_cross_r : dot b (cross a b) = 0.
Proof. unfold dot, cross. simpl. ring. Qed.

Lemma dot_scale_r (k : R) : dot a (scale k b) = k * dot a b.
Proof. unfold dot, scale. simpl. ring. Qed.

Lemma dot_scale_both (k : R) : dot (scale k a) (scale k a) = k * k * dot a a.
Proof. unfold dot, scale. simpl. ring. Qed.

Lemma dot_combination (p q r : R) :
  let d := add (add (scale p a) (scale q b)) (scale r c) in
  dot d d = p * p * dot a a + q * q * dot b b + r * r * dot c c
            + 2 * p * q * dot a b + 2 * p * r * dot a c + 2 * q * r * dot b c.
Proof. unfold dot, add, scale. simpl. ring. Qed.

Lemma dot_combination_l (p q r : R) :
  dot (add (add (scale p a) (scale q b)) (scale r c)) a
  = p * dot a a + q * dot a b + r * dot a c.
Proof. unfold dot, add, scale. simpl. ring. Qed.

End VectorAlgebra.

Lemma length_1_dot (a : vec3) : length a = 1 -> dot a a = 1.
Proof. unfold length. apply sqrt_eq_1_inv. Qed.

Lemma dot_1_length (a : vec3) : dot a a = 1 -> length a = 1.
Proof. unfold length. intros ->. apply sqrt_1. Qed.

Lemma inversesqrt_square (s : R) : 0 < s -> inversesqrt s * inversesqrt s * s = 1.
Proof.
  intros Hs. unfold inversesqrt.
  assert (Hq : 0 < sqrt s) by now apply sqrt_lt_R0.
  assert (Hss : sqrt s * sqrt s = s) by (apply sqrt_sqrt; lra).
  rewrite <- Hss at 3. field. lra.
Qed.

(** [normalize] of a vector that is not zero has unit length. *)
Lemma normalize_unit (a : vec3) :
  0 < dot a a -> dot (normalize a) (normalize a) = 1.
Proof.
  intros H. unfold normalize. rewrite dot_scale_both.
  now apply inversesqrt_square.
Qed.

Lemma dot_normalize_r (a b : vec3) :
  dot a b = 0 -> dot a (normalize b) = 0.
Proof. intros H. unfold normalize. rewrite dot_scale_r, H. ring. Qed.

Lemma nonzero_of_dot (a : vec3) : 0 < dot a a -> a <> Vec3 0 0 0.
Proof. intros H ->. unfold dot in H. simpl in H. lra. Qed.

Lemma SQRT_OF_ONE_THIRD_square : SQRT_OF_ONE_THIRD * SQRT_OF_ONE_THIRD = 1 / 3.
Proof. unfold SQRT_OF_ONE_THIRD. apply sqrt_sqrt. lra. Qed.

Lemma SQRT_OF_ONE_THIRD_pos : 0 < SQRT_OF_ONE_THIRD.
Proof. unfold SQRT_OF_ONE_THIRD. apply sqrt_lt_R0. lra. Qed.

Lemma Rabs_square (v : R) : Rabs v * Rabs v = v * v.
Proof. unfold Rabs. destruct (Rcase_abs v); ring. Qed.

(** The chosen axis is a unit axis. *)
Lemma directionNotNormal_unit (normal : vec3) :
  dot (directionNotNormal normal) (directionNotNormal normal) = 1.
Proof.
  unfold directionNotNormal.
  destruct (Rlt_dec _ _); [|destruct (Rlt_dec _ _)]; unfold dot; simpl; ring.
Qed.

(** The component of a unit normal along the chosen axis. *)
Lemma directionNotNormal_dot (normal : vec3) :
  dot normal normal = 1 ->
  Rabs (dot normal (directionNotNormal normal)) <= SQRT_OF_ONE_THIRD.
Proof.
  intros Hn.
  assert (Hs := SQRT_OF_ONE_THIRD_square).
  assert (Hp := SQRT_OF_ONE_THIRD_pos).
  unfold directionNotNormal.
  destruct (Rlt_dec (Rabs (x normal)) SQRT_OF_ONE_THIRD) as [Hx | Hx].
  - replace (dot normal (Vec3 1 0 0)) with (x normal)
      by (unfold dot; simpl; ring).
    lra.
  - destruct (Rlt_dec (Rabs (y normal)) SQRT_OF_ONE_THIRD) as [Hy | Hy].
    + replace (dot normal (Vec3 0 1 0)) with (y normal)
        by (unfold dot; simpl; ring).
      lra.
    + replace (dot normal (Vec3 0 0 1)) with (z normal)
        by (unfold dot; simpl; ring).
      assert (Hx2 := Rabs_square (x normal)).
      assert (Hy2 := Rabs_square (y normal)).
      assert (Hz2 := Rabs_square (z normal)).
      assert (Hax := Rabs_pos (x normal)).
      assert (Hay := Rabs_pos (y normal)).
      assert (Haz := Rabs_pos (z normal)).
      unfold dot in Hn.
      destruct (Rle_lt_dec (Rabs (z normal)) SQRT_OF_ONE_THIRD) as [H | H];
        [exact H | exfalso; nra].
Qed.

(** The first cross product of the sampler is not degenerate. *)
Lemma cross_directionNotNormal_pos (normal : vec3) :
  dot normal normal = 1 ->
  2 / 3 <= dot (cross normal (directionNotNormal normal))
               (cross normal (directionNotNormal normal)).
Proof.
  intros Hn.
  rewrite cross_norm2, Hn, directionNotNormal_unit.
  assert (Hd := directionNotNormal_dot normal Hn).
  assert (Hs := SQRT_OF_ONE_THIRD_square).
  assert (Hp := SQRT_OF_ONE_THIRD_pos).
  assert (Hq := Rabs_square (dot normal (directionNotNormal normal))).
  assert (Ha := Rabs_pos (dot normal (directionNotNormal normal))).
  nra.
Qed.

(** The frame [(normal, perpendicularDirection1, perpendicularDirection2)]
    of a unit normal is orthonormal. *)
Lemma sampler_frame (normal : vec3) :
  dot normal normal = 1 ->
  let t1 := perpendicularDirection1 normal in
  let t2 := perpendicularDirection2 normal in
  dot t1 t1 = 1 /\ dot t2 t2 = 1
  /\ dot normal t1 = 0 /\ dot normal t2 = 0 /\ dot t1 t2 = 0
  /\ dot (cross normal t1) (cross normal t1) = 1.
Proof.
  intros Hn t1 t2.
  assert (Hc := cross_directionNotNormal_pos normal Hn).
  assert (H11 : dot t1 t1 = 1) by (apply normalize_unit; lra).
  assert (Hn1 : dot normal t1 = 0)
    by (apply dot_normalize_r, dot_cross_l).
  assert (Hc2 : dot (cross normal t1) (cross normal t1) = 1)
    by (rewrite cross_norm2, Hn, H11, Hn1; ring).
  repeat split; try assumption.
  - apply normalize_unit. fold t1. lra.
  - apply dot_normalize_r, dot_cross_l.
  - apply dot_normalize_r, dot_cross_r.
Qed.

(** C10: for a unit normal the axis [e] chosen by the three-way test
    satisfies [|dot normal e| <= sqrt(1/3)], so [cross normal e] is not the
    zero vector, and both normalized perpendicular directions are well
    defined: each is the normalization of a vector that is not zero, and has
    unit length. *)
Theorem directionNotNormal_not_parallel (normal : vec3) :
  length normal = 1 ->
  let e := directionNotNormal normal in
  let t1 := perpendicularDirection1 normal in
  let t2 := perpendicularDirection2 normal in
  Rabs (dot normal e) <= sqrt (1 / 3)
  /\ cross normal e <> Vec3 0 0 0
  /\ cross normal t1 <> Vec3 0 0 0
  /\ length t1 = 1 /\ length t2 = 1.
Proof.
  intros Hl e t1 t2.
  assert (Hn : dot normal normal = 1) by now apply length_1_dot.
  assert (Hc := cross_directionNotNormal_pos normal Hn).
  destruct (sampler_frame normal Hn) as (H11 & H22 & _ & _ & _ & Hc2).
  split; [apply directionNotNormal_dot; exact Hn|].
  split; [apply nonzero_of_dot; fold e in Hc; lra|].
  split; [apply nonzero_of_dot; fold t1 in Hc2; lra|].
  split; apply dot_1_length; assumption.
Qed.

Lemma length_0_0_1 : length (Vec3 0 0 1) = 1.
Proof.
  unfold length, dot. simpl.
  apply sqrt_of_square; lra.
Qed.

Lemma directionNotNormal_not_parallel_witness :
  Rabs (dot (Vec3 0 0 1) (directionNotNormal (Vec3 0 0 1))) <= sqrt (1 / 3).
Proof.
  exact (proj1 (directionNotNormal_not_parallel (Vec3 0 0 1) length_0_0_1)).
Defined.

(** C9: for a unit normal [n] and two draws [u1], [u2] in [0,1) the sampler
    returns a direction [d] of unit length with [dot d n = sqrt u1 >= 0],
    and the engine has moved on by exactly two draws. *)
Theorem calculateRandomDirectionInHemisphere_unit_upper
    (normal : vec3) (rng : Rng.t) :
  length normal = 1 ->
  let u1 := Rng.draws rng (Rng.consumed rng) in
  let u2 := Rng.draws rng (S (Rng.consumed rng)) in
  0 <= u1 < 1 ->
  0 <= u2 < 1 ->
  let d := fst (calculateRandomDirectionInHemisphere normal rng) in
  length d = 1
  /\ dot d normal = sqrt u1
  /\ 0 <= dot d normal
  /\ Rng.consumed (snd (calculateRandomDirectionInHemisphere normal rng))
     = S (S (Rng.consumed rng)).
Proof.
  intros Hl u1 u2 Hu1 Hu2 d.
  assert (Hn : dot normal normal = 1) by now apply length_1_dot.
  destruct (sampler_frame normal Hn) as (H11 & H22 & Hn1 & Hn2 & H12 & _).
  unfold d, calculateRandomDirectionInHemisphere, Rng.u01. simpl.
  fold u1. fold u2.
  set (up := sqrt u1).
  set (over := sqrt (1 - up * up)).
  set (around := u2 * TWO_PI).
  assert (Hup : up * up = u1) by (apply sqrt_sqrt; lra).
  assert (Hover : over * over = 1 - u1)
    by (unfold over; rewrite Hup; apply sqrt_sqrt; lra).
  assert (Htrig : sin around * sin around + cos around * cos around = 1).
  { generalize (sin2_cos2 around). unfold Rsqr. tauto. }
  assert (Hdn : dot (add (add (scale up normal)
                        (scale (cos around * over) (perpendicularDirection1 normal)))
                   (scale (sin around * over) (perpendicularDirection2 normal)))
                  normal = up).
  { rewrite dot_combination_l, Hn, Hn1, Hn2. ring. }
  split; [|split; [exact Hdn | split; [rewrite Hdn; apply sqrt_pos | reflexivity]]].
  apply dot_1_length.
  rewrite dot_combination, Hn, H11, H22, Hn1, Hn2, H12.
  replace (up * up * 1 + cos around * over * (cos around * over) * 1
           + sin around * over * (sin around * over) * 1
           + 2 * up * (cos around * over) * 0 + 2 * up * (sin around * over) * 0
           + 2 * (cos around * over) * (sin around * over) * 0)
    with (up * up
          + (sin around * sin around + cos around * cos around) * (over * over))
    by ring.
  rewrite Htrig, Hup, Hover. ring.
Qed.

Lemma calculateRandomDirectionInHemisphere_unit_upper_witness :
  length (fst (calculateRandomDirectionInHemisphere (Vec3 0 0 1) zeroEngine)) = 1.
Proof.
  assert (H0 : 0 <= Rng.draws zeroEngine (Rng.consumed zeroEngine) < 1)
    by (simpl; lra).
  assert (H1 : 0 <= Rng.draws zeroEngine (S (Rng.consumed zeroEngine)) < 1)
    by (simpl; lra).
  exact (proj1 (calculateRandomDirectionInHemisphere_unit_upper
                  (Vec3 0 0 1) zeroEngine length_0_0_1 H0 H1)).
Defined.

(** ** More on the Fresnel evaluator *)

Lemma clamp_above (v : R) : 1 <= v -> clamp v (-1) 1 = 1.
Proof.
  intros H. unfold clamp, Rmin, Rmax.
  destruct (Rle_dec v (-1)); destruct (Rle_dec _ 1); lra.
Qed.

Lemma clamp_pos (v : R) : 0 < v -> 0 < clamp v (-1) 1 <= 1.
Proof.
  intros H. unfold clamp, Rmin, Rmax.
  destruct (Rle_dec v (-1)); destruct (Rle_dec _ 1); lra.
Qed.

Lemma clamp_neg (v : R) : v < 0 -> -1 <= clamp v (-1) 1 < 0.
Proof.
  intros H. unfold clamp, Rmin, Rmax.
  destruct (Rle_dec v (-1)); destruct (Rle_dec _ 1); lra.
Qed.

(** The sine of the incident angle, for a cosine already in [-1,1]. *)
Lemma sinThetaI_range (c : R) :
  -1 <= c <= 1 ->
  let s := sqrt (Rmax 0 (1 - c * c)) in
  0 <= s <= 1 /\ s * s = 1 - c * c.
Proof.
  intros Hc s. unfold s.
  rewrite Rmax_0_of_nonneg by nra.
  assert (Hs : sqrt (1 - c * c) * sqrt (1 - c * c) = 1 - c * c)
    by (apply sqrt_sqrt; nra).
  assert (Hp := sqrt_pos (1 - c * c)).
  repeat split; try assumption.
  destruct (Rle_lt_dec (sqrt (1 - c * c)) 1) as [H | H]; [exact H | nra].
Qed.

(** The cosine of the transmitted angle below the critical angle. *)
Lemma cosThetaT_range (sT : R) :
  0 <= sT < 1 ->
  let cT := sqrt (Rmax 0 (1 - sT * sT)) in
  0 < cT <= 1 /\ cT * cT = 1 - sT * sT.
Proof.
  intros Hs cT. unfold cT.
  rewrite Rmax_0_of_nonneg by nra.
  assert (Hq : sqrt (1 - sT * sT) * sqrt (1 - sT * sT) = 1 - sT * sT)
    by (apply sqrt_sqrt; nra).
  assert (Hp : 0 < sqrt (1 - sT * sT)) by (apply sqrt_lt_R0; nra).
  repeat split; try assumption.
  destruct (Rle_lt_dec (sqrt (1 - sT * sT)) 1) as [H | H]; [exact H | nra].
Qed.

(** The value of [dielectric] when the guard does not fire. *)
Lemma dielectric_below_guard (cosThetaI etaI etaT : R) :
  let c := clamp cosThetaI (-1) 1 in
  let sT := etaI / etaT * sqrt (Rmax 0 (1 - c * c)) in
  let cT := sqrt (Rmax 0 (1 - sT * sT)) in
  sT < 1 ->
  dielectric cosThetaI etaI etaT
  = ((etaT * c - etaI * cT) / (etaT * c + etaI * cT)
     * ((etaT * c - etaI * cT) / (etaT * c + etaI * cT))
     + (etaI * c - etaT * cT) / (etaI * c + etaT * cT)
       * ((etaI * c - etaT * cT) / (etaI * c + etaT * cT))) / 2.
Proof.
  intros c sT cT Hlt. unfold dielectric. fold c. fold sT.
  destruct (Rge_dec sT 1) as [H | _]; [lra | reflexivity].
Qed.

Lemma ratio_pos (etaI etaT : R) : 0 < etaI -> 0 < etaT -> 0 < etaI / etaT.
Proof. intros HI HT. now apply Rdiv_lt_0_compat. Qed.

(** X1: at normal incidence (a cosine of 1 or more, which the clamp brings
    to 1) the reflectance is [((etaI - etaT) / (etaI + etaT))^2]. *)
Theorem dielectric_normal_incidence (cosThetaI etaI etaT : R) :
  1 <= cosThetaI -> 0 < etaI -> 0 < etaT ->
  dielectric cosThetaI etaI etaT
  = (etaI - etaT) / (etaI + etaT) * ((etaI - etaT) / (etaI + etaT)).
Proof.
  intros Hc HI HT.
  assert (Hr := ratio_pos etaI etaT HI HT).
  assert (HsI : sqrt (Rmax 0 (1 - clamp cosThetaI (-1) 1 * clamp cosThetaI (-1) 1)) = 0).
  { rewrite clamp_above by exact Hc.
    rewrite Rmax_0_of_nonneg by lra.
    apply sqrt_of_square; lra. }
  rewrite dielectric_below_guard; rewrite HsI; [|lra].
  rewrite clamp_above by exact Hc.
  replace (etaI / etaT * 0) with 0 by ring.
  rewrite Rmax_0_of_nonneg by lra.
  rewrite (sqrt_of_square (1 - 0 * 0) 1) by lra.
  field. lra.
Qed.

Lemma dielectric_normal_incidence_witness : dielectric 1 1 (3 / 2) = 1 / 25.
Proof.
  rewrite (dielectric_normal_incidence 1 1 (3 / 2)) by lra. field.
Defined.

(** X2: at grazing incidence (a cosine of 0) the reflectance is 1, whatever
    the two positive indices are. *)
Theorem dielectric_grazing (etaI etaT : R) :
  0 < etaI -> 0 < etaT -> dielectric 0 etaI etaT = 1.
Proof.
  intros HI HT.
  assert (Hr := ratio_pos etaI etaT HI HT).
  destruct (Rge_dec (etaI / etaT
                     * sqrt (Rmax 0 (1 - clamp 0 (-1) 1 * clamp 0 (-1) 1))) 1)
    as [Hge | Hlt].
  - now apply dielectric_guard.
  - rewrite dielectric_below_guard by lra.
    rewrite clamp_inside in * by lra.
    set (sT := etaI / etaT * sqrt (Rmax 0 (1 - 0 * 0))) in *.
    assert (HsT : 0 <= sT).
    { unfold sT. apply Rmult_le_pos; [lra | apply sqrt_pos]. }
    destruct (cosThetaT_range sT) as [[HcT _] _]; [lra|].
    field. split; nra.
Qed.

Lemma dielectric_grazing_witness : dielectric 0 1 (3 / 2) = 1.
Proof. apply (dielectric_grazing 1 (3 / 2)); lra. Defined.

Lemma square_inj_pos (a b : R) : 0 < a -> 0 < b -> a * a = b * b -> a = b.
Proof.
  intros Ha Hb H.
  assert (Hz : (a - b) * (a + b) = 0) by (ring_simplify; lra).
  destruct (Rmult_integral _ _ Hz); lra.
Qed.

(** X3: between two media of the same index nothing is reflected: for every
    cosine [> 0] and index [eta > 0], [dielectric cosThetaI eta eta = 0]. *)
Theorem dielectric_matched_indices (cosThetaI eta : R) :
  0 < cosThetaI -> 0 < eta -> dielectric cosThetaI eta eta = 0.
Proof.
  intros Hc He.
  assert (Hone : eta / eta = 1) by (field; lra).
  destruct (clamp_pos cosThetaI Hc) as [Hc0 Hc1].
  destruct (sinThetaI_range (clamp cosThetaI (-1) 1)) as [[Hs0 Hs1] Hss]; [lra|].
  set (c := clamp cosThetaI (-1) 1) in *.
  set (sI := sqrt (Rmax 0 (1 - c * c))) in *.
  assert (HsI : sI < 1) by nra.
  rewrite dielectric_below_guard; fold c; fold sI; rewrite Hone, Rmult_1_l;
    [|exact HsI].
  destruct (cosThetaT_range sI) as [[HcT0 HcT1] HcTT]; [lra|].
  set (cT := sqrt (Rmax 0 (1 - sI * sI))) in *.
  assert (HcT : cT = c) by (apply square_inj_pos; nra).
  rewrite HcT. field. nra.
Qed.

Lemma dielectric_matched_indices_witness : dielectric (1 / 2) (3 / 2) (3 / 2) = 0.
Proof. apply (dielectric_matched_indices (1 / 2) (3 / 2)); lra. Defined.

Lemma fresnel_term_square_lt (a b : R) :
  0 < a -> 0 < b ->
  ((a - b) / (a + b)) * ((a - b) / (a + b)) < 1.
Proof.
  intros Ha Hb.
  assert (Hi : 0 < / (a + b)) by (apply Rinv_0_lt_compat; lra).
  assert (Hone : (a + b) * / (a + b) = 1) by (apply Rinv_r; lra).
  unfold Rdiv. set (i := / (a + b)) in *.
  assert (H : (a - b) * i * ((a - b) * i)
              = (a + b) * i * ((a + b) * i) - 4 * a * b * (i * i)) by ring.
  rewrite H, Hone.
  assert (0 < a * b * (i * i)) by (repeat apply Rmult_lt_0_compat; assumption).
  lra.
Qed.

Lemma fresnel_term_square_gt (a b : R) :
  a < 0 -> 0 < b -> a + b <> 0 ->
  1 < ((a - b) / (a + b)) * ((a - b) / (a + b)).
Proof.
  intros Ha Hb Hn.
  assert (Hone : (a + b) * / (a + b) = 1) by (apply Rinv_r; exact Hn).
  assert (Hi : / (a + b) <> 0) by (apply Rinv_neq_0_compat; exact Hn).
  unfold Rdiv. set (i := / (a + b)) in *.
  assert (H : (a - b) * i * ((a - b) * i)
              = (a + b) * i * ((a + b) * i) + 4 * (- a) * b * (i * i)) by ring.
  rewrite H, Hone.
  assert (Hii : 0 < i * i) by nra.
  assert (0 < (- a) * b * (i * i))
    by (apply Rmult_lt_0_compat; [apply Rmult_lt_0_compat; lra | exact Hii]).
  lra.
Qed.

(** For a cosine [> 0] the value 1 is reached by the guard only. *)
Lemma dielectric_one_iff_guard (cosThetaI etaI etaT : R) :
  0 < cosThetaI -> 0 < etaI -> 0 < etaT ->
  let c := clamp cosThetaI (-1) 1 in
  let sinThetaT := etaI / etaT * sqrt (Rmax 0 (1 - c * c)) in
  (dielectric cosThetaI etaI etaT = 1 <-> sinThetaT >= 1)
  /\ (sinThetaT < 1 -> dielectric cosThetaI etaI etaT < 1).
Proof.
  intros Hc HI HT c sT.
  assert (Hr := ratio_pos etaI etaT HI HT).
  destruct (clamp_pos cosThetaI Hc) as [Hc0 Hc1]. fold c in Hc0, Hc1.
  assert (Hlt : sT < 1 -> dielectric cosThetaI etaI etaT < 1).
  { intros Hs. rewrite dielectric_below_guard by exact Hs. fold c. fold sT.
    assert (HsT0 : 0 <= sT).
    { unfold sT. apply Rmult_le_pos; [lra | apply sqrt_pos]. }
    destruct (cosThetaT_range sT) as [[HcT0 _] _]; [lra|].
    set (cT := sqrt (Rmax 0 (1 - sT * sT))) in *.
    assert (H1 := fresnel_term_square_lt (etaT * c) (etaI * cT)
                    (Rmult_lt_0_compat _ _ HT Hc0)
                    (Rmult_lt_0_compat _ _ HI HcT0)).
    assert (H2 := fresnel_term_square_lt (etaI * c) (etaT * cT)
                    (Rmult_lt_0_compat _ _ HI Hc0)
                    (Rmult_lt_0_compat _ _ HT HcT0)).
    lra. }
  split; [|exact Hlt]. split.
  - intros H1. destruct (Rge_dec sT 1) as [Hge | Hn]; [exact Hge|].
    assert (Hs : sT < 1) by lra. apply Hlt in Hs. lra.
  - intros Hge. now apply dielectric_guard.
Qed.

(** X4: for a cosine [> 0] and positive indices the reflectance is 1 exactly
    when the guard fires, that is when [etaI / etaT * sinThetaI >= 1];
    below the critical angle it is strictly less than 1. *)
Theorem dielectric_one_iff_total_internal_reflection (cosThetaI etaI etaT : R) :
  0 < cosThetaI -> 0 < etaI -> 0 < etaT ->
  let c := clamp cosThetaI (-1) 1 in
  let sinThetaT := etaI / etaT * sqrt (Rmax 0 (1 - c * c)) in
  (dielectric cosThetaI etaI etaT = 1 <-> sinThetaT >= 1)
  /\ (sinThetaT < 1 -> dielectric cosThetaI etaI etaT < 1).
Proof. intros Hc HI HT. now apply dielectric_one_iff_guard. Qed.

Lemma dielectric_one_iff_total_internal_reflection_witness :
  dielectric 1 1 (3 / 2) < 1.
Proof.
  assert (H1 : 0 < 1) by lra.
  assert (H2 : 0 < 3 / 2) by lra.
  apply (proj2 (dielectric_one_iff_total_internal_reflection 1 1 (3 / 2) H1 H1 H2)).
  rewrite clamp_inside by lra.
  rewrite Rmax_0_of_nonneg by lra.
  rewrite (sqrt_of_square (1 - 1 * 1) 0) by lra. lra.
Defined.

(** X5: a negative cosine is not flipped by [dielectric]: below the guard,
    and when neither denominator vanishes, the value is strictly above 1. *)
Theorem dielectric_negative_cosine (cosThetaI etaI etaT : R) :
  cosThetaI < 0 -> 0 < etaI -> 0 < etaT ->
  let c := clamp cosThetaI (-1) 1 in
  let sinThetaT := etaI / etaT * sqrt (Rmax 0 (1 - c * c)) in
  let cosThetaT := sqrt (Rmax 0 (1 - sinThetaT * sinThetaT)) in
  sinThetaT < 1 ->
  etaT * c + etaI * cosThetaT <> 0 ->
  etaI * c + etaT * cosThetaT <> 0 ->
  1 < dielectric cosThetaI etaI etaT.
Proof.
  intros Hc HI HT c sT cT Hs Hd1 Hd2.
  assert (Hr := ratio_pos etaI etaT HI HT).
  destruct (clamp_neg cosThetaI Hc) as [Hc0 Hc1]. fold c in Hc0, Hc1.
  rewrite dielectric_below_guard by exact Hs. fold c. fold sT. fold cT.
  assert (HsT0 : 0 <= sT).
  { unfold sT. apply Rmult_le_pos; [lra | apply sqrt_pos]. }
  destruct (cosThetaT_range sT) as [[HcT0 _] _]; [lra|]. fold cT in HcT0.
  assert (H1 : 1 < (etaT * c - etaI * cT) / (etaT * c + etaI * cT)
                   * ((etaT * c - etaI * cT) / (etaT * c + etaI * cT))).
  { apply fresnel_term_square_gt; [nra | nra | exact Hd1]. }
  assert (H2 : 1 < (etaI * c - etaT * cT) / (etaI * c + etaT * cT)
                   * ((etaI * c - etaT * cT) / (etaI * c + etaT * cT))).
  { apply fresnel_term_square_gt; [nra | nra | exact Hd2]. }
  lra.
Qed.

Lemma dielectric_negative_cosine_witness :
  1 < dielectric (- (4 / 5)) 1 (39 / 25).
Proof.
  assert (Hc : clamp (- (4 / 5)) (-1) 1 = - (4 / 5)) by (apply clamp_inside; lra).
  assert (HsI : sqrt (Rmax 0 (1 - - (4 / 5) * - (4 / 5))) = 3 / 5).
  { rewrite Rmax_0_of_nonneg by lra. apply sqrt_of_square; lra. }
  assert (HcT : sqrt (Rmax 0 (1 - 1 / (39 / 25) * (3 / 5) * (1 / (39 / 25) * (3 / 5))))
                = 12 / 13).
  { rewrite Rmax_0_of_nonneg by lra. apply sqrt_of_square; lra. }
  apply (dielectric_negative_cosine (- (4 / 5)) 1 (39 / 25));
    try rewrite Hc; try rewrite HsI; try rewrite HcT; lra.
Defined.

(** The value of [dielectric] from the sines and cosines of both angles. *)
Lemma dielectric_explicit (c etaI etaT sI sT cT : R) :
  -1 <= c <= 1 ->
  0 <= sI -> sI * sI = 1 - c * c ->
  sT = etaI / etaT * sI -> sT < 1 ->
  0 <= cT -> cT * cT = 1 - sT * sT ->
  dielectric c etaI etaT
  = ((etaT * c - etaI * cT) / (etaT * c + etaI * cT)
     * ((etaT * c - etaI * cT) / (etaT * c + etaI * cT))
     + (etaI * c - etaT * cT) / (etaI * c + etaT * cT)
       * ((etaI * c - etaT * cT) / (etaI * c + etaT * cT))) / 2.
Proof.
  intros Hc HsI HsI2 HsT HsT1 HcT HcT2.
  assert (E1 : sqrt (Rmax 0 (1 - clamp c (-1) 1 * clamp c (-1) 1)) = sI).
  { rewrite clamp_inside by exact Hc.
    rewrite Rmax_0_of_nonneg by nra.
    apply sqrt_of_square; [exact HsI | lra]. }
  rewrite dielectric_below_guard; rewrite E1, <- HsT; [|exact HsT1].
  rewrite clamp_inside by exact Hc.
  assert (E2 : sqrt (Rmax 0 (1 - sT * sT)) = cT).
  { rewrite Rmax_0_of_nonneg by nra.
    apply sqrt_of_square; [exact HcT | lra]. }
  rewrite E2. reflexivity.
Qed.

(** X6: reciprocity.  Below the critical angle the reflectance seen from the
    other side of the surface, at the transmitted angle and with the indices
    exchanged, is the same. *)
Theorem dielectric_reciprocity (cosThetaI etaI etaT : R) :
  0 < cosThetaI <= 1 -> 0 < etaI -> 0 < etaT ->
  let sinThetaT := etaI / etaT * sqrt (1 - cosThetaI * cosThetaI) in
  let cosThetaT := sqrt (1 - sinThetaT * sinThetaT) in
  sinThetaT < 1 ->
  dielectric cosThetaI etaI etaT = dielectric cosThetaT etaT etaI.
Proof.
  intros Hc HI HT sT cT HsT1.
  assert (Hr := ratio_pos etaI etaT HI HT).
  set (sI := sqrt (1 - cosThetaI * cosThetaI)) in *.
  assert (HsI0 : 0 <= sI) by apply sqrt_pos.
  assert (HsI2 : sI * sI = 1 - cosThetaI * cosThetaI)
    by (apply sqrt_sqrt; nra).
  assert (HsI1 : sI < 1) by nra.
  assert (HsT0 : 0 <= sT) by (unfold sT; apply Rmult_le_pos; lra).
  assert (HcT0 : 0 < cT) by (apply sqrt_lt_R0; nra).
  assert (HcT2 : cT * cT = 1 - sT * sT) by (apply sqrt_sqrt; nra).
  assert (HcT1 : cT <= 1).
  { destruct (Rle_lt_dec cT 1) as [H | H]; [exact H | nra]. }
  rewrite (dielectric_explicit cosThetaI etaI etaT sI sT cT);
    try lra; try reflexivity.
  rewrite (dielectric_explicit cT etaT etaI sT sI cosThetaI); try lra.
  - field. repeat split; nra.
  - unfold sT. field. lra.
Qed.

Lemma dielectric_reciprocity_witness :
  dielectric 1 1 (3 / 2)
  = dielectric (sqrt (1 - 1 / (3 / 2) * sqrt (1 - 1 * 1)
                          * (1 / (3 / 2) * sqrt (1 - 1 * 1)))) (3 / 2) 1.
Proof.
  apply (dielectric_reciprocity 1 1 (3 / 2)); try lra.
  rewrite (sqrt_of_square (1 - 1 * 1) 0) by lra. lra.
Defined.

(** ** scatterRay on unit normals *)

Lemma normalize_of_unit (a : vec3) : dot a a = 1 -> normalize a = a.
Proof.
  intros H. unfold normalize, inversesqrt. rewrite H, sqrt_1.
  destruct a as [ax ay az]. unfold scale. simpl. f_equal; field.
Qed.

Lemma cauchy_schwarz (a b : vec3) : dot a b * dot a b <= dot a a * dot b b.
Proof.
  assert (H := cross_norm2 a b).
  assert (Hp : 0 <= dot (cross a b) (cross a b)).
  { unfold dot. generalize (cross a b). intros v. nra. }
  lra.
Qed.

(** The cosine between a unit normal and a unit direction. *)
Lemma cosine_range (n w : vec3) :
  dot n n = 1 -> dot w w = 1 -> -1 <= dot n w <= 1.
Proof.
  intros Hn Hw. assert (H := cauchy_schwarz n w). rewrite Hn, Hw in H.
  split; nra.
Qed.

Lemma reflect_norm2 (I N : vec3) :
  dot N N = 1 -> dot (reflect I N) (reflect I N) = dot I I.
Proof.
  intros H.
  assert (E : dot (reflect I N) (reflect I N)
              = dot I I + 4 * (dot N I * dot N I) * (dot N N - 1))
    by (unfold reflect, dot, sub, scale; simpl; ring).
  rewrite E, H. ring.
Qed.

Lemma reflect_dot_normal (I N : vec3) :
  dot N N = 1 -> dot (reflect I N) N = - dot N I.
Proof.
  intros H.
  assert (E : dot (reflect I N) N = dot N I - 2 * dot N I * dot N N)
    by (unfold reflect, dot, sub, scale; simpl; ring).
  rewrite E, H. ring.
Qed.

Lemma reflect_involutive (I N : vec3) :
  dot N N = 1 -> reflect (reflect I N) N = I.
Proof.
  intros H.
  assert (E : dot N (reflect I N) = - dot N I).
  { assert (E' : dot N (reflect I N) = dot N I - 2 * dot N I * dot N N)
      by (unfold reflect, dot, sub, scale; simpl; ring).
    rewrite E', H. ring. }
  unfold reflect at 1. rewrite E.
  destruct I as [ix iy iz], N as [nx ny nz].
  unfold reflect, sub, scale, dot. simpl. f_equal; ring.
Qed.

Lemma length_upNormal : length upNormal = 1.
Proof. unfold length, upNormal, dot. simpl. apply sqrt_of_square; lra. Qed.

Lemma leavingGlass_direction_nonzero :
  0 < dot (Ray.direction (PathSegment.ray leavingGlass))
          (Ray.direction (PathSegment.ray leavingGlass)).
Proof. unfold dot. simpl. lra. Qed.

(** The ray after a mirror bounce on a unit normal. *)
Lemma mirror_bounce
    (pathSegment : PathSegment.t) (intersect normal : vec3)
    (m : Material.t) (rng : Rng.t) (depth : Z) :
  Material.hasReflective m = true ->
  Material.hasRefractive m = false ->
  Material.emittance m <= 0 ->
  length normal = 1 ->
  0 < dot (Ray.direction (PathSegment.ray pathSegment))
          (Ray.direction (PathSegment.ray pathSegment)) ->
  let wo := normalize (Ray.direction (PathSegment.ray pathSegment)) in
  let out := PathSegment.ray (fst (scatterRay pathSegment intersect normal m rng depth)) in
  Ray.direction out = reflect wo normal
  /\ length (Ray.direction out) = 1
  /\ dot (Ray.direction out) normal = - dot normal wo
  /\ Ray.origin out = add intersect (scale 0.0001 (Ray.direction out)).
Proof.
  intros Hrefl Hrefr He Hl Hd wo out.
  assert (Hn : dot normal normal = 1) by now apply length_1_dot.
  assert (Hw : dot wo wo = 1) by now apply normalize_unit.
  assert (Hr : dot (reflect wo normal) (reflect wo normal) = 1)
    by (rewrite reflect_norm2; assumption).
  assert (Hdir : Ray.direction out = reflect wo normal).
  { unfold out, scatterRay.
    destruct (Rgt_dec (Material.emittance m) 0) as [Hp | _]; [lra|].
    unfold scatterBranch. rewrite Hrefr, Hrefl. simpl.
    fold wo. now apply normalize_of_unit. }
  split; [exact Hdir|]. rewrite Hdir.
  split; [now apply dot_1_length|].
  split; [now apply reflect_dot_normal|].
  unfold out, scatterRay.
  destruct (Rgt_dec (Material.emittance m) 0) as [Hp | _]; [lra|].
  unfold scatterBranch. rewrite Hrefr, Hrefl. reflexivity.
Qed.

(** X7: a mirror bounce on a unit normal.  For a mirror material
    ([hasReflective] only, [emittance <= 0]), a unit normal and an incoming
    direction that is not zero, the new direction is [reflect(wo, normal)]
    itself, has unit length, makes the opposite cosine with the normal, and
    the new origin is the hit point moved by 0.0001 along it. *)
Theorem scatterRay_mirror_unit
    (pathSegment : PathSegment.t) (intersect normal : vec3)
    (m : Material.t) (rng : Rng.t) (depth : Z) :
  Material.hasReflective m = true ->
  Material.hasRefractive m = false ->
  Material.emittance m <= 0 ->
  length normal = 1 ->
  0 < dot (Ray.direction (PathSegment.ray pathSegment))
          (Ray.direction (PathSegment.ray pathSegment)) ->
  let wo := normalize (Ray.direction (PathSegment.ray pathSegment)) in
  let out := PathSegment.ray (fst (scatterRay pathSegment intersect normal m rng depth)) in
  Ray.direction out = reflect wo normal
  /\ length (Ray.direction out) = 1
  /\ dot (Ray.direction out) normal = - dot normal wo
  /\ Ray.origin out = add intersect (scale 0.0001 (Ray.direction out)).
Proof. intros Hrefl Hrefr He Hl Hd. now apply mirror_bounce. Qed.

Lemma scatterRay_mirror_unit_witness :
  length (Ray.direction (PathSegment.ray
            (fst (scatterRay leavingGlass hitPoint upNormal mirror zeroEngine 0))))
  = 1.
Proof.
  assert (He : Material.emittance mirror <= 0) by (simpl; lra).
  exact (proj1 (proj2 (scatterRay_mirror_unit
                         leavingGlass hitPoint upNormal mirror zeroEngine 0
                         eq_refl eq_refl He length_upNormal
                         leavingGlass_direction_nonzero))).
Defined.

(** X8: two mirror bounces on the same unit normal give back the normalized
    incoming direction, and the colour has been multiplied twice by the
    specular colour. *)
Theorem scatterRay_mirror_twice
    (pathSegment : PathSegment.t) (intersect intersect' normal : vec3)
    (m : Material.t) (rng : Rng.t) (depth depth' : Z) :
  Material.hasReflective m = true ->
  Material.hasRefractive m = false ->
  Material.emittance m <= 0 ->
  length normal = 1 ->
  0 < dot (Ray.direction (PathSegment.ray pathSegment))
          (Ray.direction (PathSegment.ray pathSegment)) ->
  let once := fst (scatterRay pathSegment intersect normal m rng depth) in
  let twice := fst (scatterRay once intersect' normal m rng depth') in
  Ray.direction (PathSegment.ray twice)
  = normalize (Ray.direction (PathSegment.ray pathSegment))
  /\ PathSegment.color twice
     = mul (mul (PathSegment.color pathSegment)
                (Specular.color (Material.specular m)))
           (Specular.color (Material.specular m)).
Proof.
  intros Hrefl Hrefr He Hl Hd once twice.
  assert (Hn : dot normal normal = 1) by now apply length_1_dot.
  set (wo := normalize (Ray.direction (PathSegment.ray pathSegment))).
  assert (Hw : dot wo wo = 1) by now apply normalize_unit.
  destruct (mirror_bounce pathSegment intersect normal m rng depth
              Hrefl Hrefr He Hl Hd) as (Hdir & Hlen & _ & _).
  fold once in Hdir, Hlen. fold wo in Hdir.
  assert (Hd1 : dot (Ray.direction (PathSegment.ray once))
                    (Ray.direction (PathSegment.ray once)) = 1)
    by now apply length_1_dot.
  assert (Hd' : 0 < dot (Ray.direction (PathSegment.ray once))
                        (Ray.direction (PathSegment.ray once))) by lra.
  destruct (mirror_bounce once intersect' normal m rng depth'
              Hrefl Hrefr He Hl Hd') as (Hdir2 & _).
  fold twice in Hdir2.
  split.
  - rewrite Hdir2, (normalize_of_unit _ Hd1), Hdir.
    now apply reflect_involutive.
  - unfold twice, once, scatterRay.
    destruct (Rgt_dec (Material.emittance m) 0) as [Hp | _]; [lra|].
    unfold scatterBranch. rewrite Hrefr, Hrefl. reflexivity.
Qed.

Lemma scatterRay_mirror_twice_witness :
  Ray.direction (PathSegment.ray
    (fst (scatterRay
            (fst (scatterRay leavingGlass hitPoint upNormal mirror zeroEngine 0))
            hitPoint upNormal mirror zeroEngine 1)))
  = normalize (Ray.direction (PathSegment.ray leavingGlass)).
Proof.
  assert (He : Material.emittance mirror <= 0) by (simpl; lra).
  exact (proj1 (scatterRay_mirror_twice
                  leavingGlass hitPoint hitPoint upNormal mirror zeroEngine 0 1
                  eq_refl eq_refl He length_upNormal
                  leavingGlass_direction_nonzero)).
Defined.

(** ** scatterRay: refraction on unit normals *)

Lemma sub_scale_norm2 (I N : vec3) (p q : R) :
  dot (sub (scale p I) (scale q N)) (sub (scale p I) (scale q N))
  = p * p * dot I I - 2 * p * q * dot N I + q * q * dot N N.
Proof. unfold dot, sub, scale. simpl. ring. Qed.

Lemma sub_scale_dot (I N : vec3) (p q : R) :
  dot (sub (scale p I) (scale q N)) N = p * dot N I - q * dot N N.
Proof. unfold dot, sub, scale. simpl. ring. Qed.

Lemma sub_scale_tangent (I N : vec3) (p q t : R) :
  sub (sub (scale p I) (scale (p * t + q) N)) (scale (- q) N)
  = scale p (sub I (scale t N)).
Proof. unfold sub, scale. simpl. f_equal; ring. Qed.

(** [glm::refract] of unit vectors, when its radicand is not negative: a
    unit vector, with normal component [- sqrt k] and a tangential part
    scaled by [eta] (Snell's law). *)
Lemma refract_success (I N : vec3) (eta : R) :
  dot I I = 1 -> dot N N = 1 ->
  let k := 1 - eta * eta * (1 - dot N I * dot N I) in
  0 <= k ->
  let r := refract I N eta in
  dot r r = 1
  /\ dot r N = - sqrt k
  /\ sub r (scale (dot r N) N) = scale eta (sub I (scale (dot N I) N)).
Proof.
  intros HI HN k Hk r.
  assert (Hs : sqrt k * sqrt k = k) by now apply sqrt_sqrt.
  assert (Er : r = sub (scale eta I) (scale (eta * dot N I + sqrt k) N)).
  { unfold r, refract. fold k.
    destruct (Rge_dec k 0) as [_ | Hn]; [reflexivity | lra]. }
  assert (Hdot : dot r N = - sqrt k).
  { rewrite Er, sub_scale_dot, HN. ring. }
  split; [|split; [exact Hdot|]].
  - rewrite Er, sub_scale_norm2, HI, HN.
    transitivity (eta * eta * (1 - dot N I * dot N I) + sqrt k * sqrt k);
      [ring | rewrite Hs; unfold k; ring].
  - rewrite Hdot, Er. apply sub_scale_tangent.
Qed.

Lemma dot_neg_r (a b : vec3) : dot a (neg b) = - dot a b.
Proof. unfold dot, neg. simpl. ring. Qed.

Lemma dot_neg_neg (a : vec3) : dot (neg a) (neg a) = dot a a.
Proof. unfold dot, neg. simpl. ring. Qed.

Lemma scale_neg_neg (s : R) (a : vec3) : scale (- s) (neg a) = scale s a.
Proof. unfold scale, neg. simpl. f_equal; ring. Qed.

Lemma add_scale_zero (a : vec3) (s : R) : add a (scale s (splat 0)) = a.
Proof. destruct a. unfold add, scale, splat. simpl. f_equal; ring. Qed.

Lemma scale_1 (a : vec3) : scale 1 a = a.
Proof. destruct a. unfold scale. simpl. f_equal; ring. Qed.

Lemma length_zero : length (Vec3 0 0 0) = 0.
Proof. unfold length, dot. simpl. apply sqrt_of_square; lra. Qed.

(** What [scatterRay] writes in the refractive branch once [f <= 1]. *)
Lemma scatterRay_refractive_out
    (pathSegment : PathSegment.t) (intersect normal : vec3)
    (m : Material.t) (rng : Rng.t) (depth : Z) :
  Material.hasRefractive m = true ->
  Material.emittance m <= 0 ->
  0 < Material.indexOfRefraction m ->
  let wo := normalize (Ray.direction (PathSegment.ray pathSegment)) in
  let wi := fst (refractedAndFresnel normal wo m) in
  let f := snd (refractedAndFresnel normal wo m) in
  let out := fst (scatterRay pathSegment intersect normal m rng depth) in
  Ray.direction (PathSegment.ray out) = normalize wi
  /\ Ray.origin (PathSegment.ray out) = add intersect (scale 0.0001 wi)
  /\ PathSegment.color out
     = mul (PathSegment.color pathSegment)
           (scale (Rmax 1 ((1 - f) / Rabs (dot normal wo)))
                  (Specular.color (Material.specular m))).
Proof.
  intros Hrefr He Hior wo wi f out.
  assert (Hf : f <= 1) by (apply refractedAndFresnel_le_1; exact Hior).
  unfold out, scatterRay.
  destruct (Rgt_dec (Material.emittance m) 0) as [Hp | _]; [lra|].
  unfold scatterBranch. rewrite Hrefr. fold wo.
  unfold wi, f in *.
  destruct (refractedAndFresnel normal wo m) as [wi0 f0]. simpl in *.
  destruct (Rgt_dec f0 1) as [Hgt | _]; [lra|]. repeat split.
Qed.

(** The refracted direction of [scatterRay] when [refract] succeeds. *)
Lemma refraction_bounce
    (pathSegment : PathSegment.t) (intersect normal : vec3)
    (m : Material.t) (rng : Rng.t) (depth : Z) :
  Material.hasRefractive m = true ->
  Material.emittance m <= 0 ->
  0 < Material.indexOfRefraction m ->
  length normal = 1 ->
  0 < dot (Ray.direction (PathSegment.ray pathSegment))
          (Ray.direction (PathSegment.ray pathSegment)) ->
  let wo := normalize (Ray.direction (PathSegment.ray pathSegment)) in
  let cosThetaI := dot normal wo in
  let eta := if Rlt_dec cosThetaI 0
             then 1 / Material.indexOfRefraction m
             else Material.indexOfRefraction m in
  let k := 1 - eta * eta * (1 - cosThetaI * cosThetaI) in
  0 <= k ->
  let out := PathSegment.ray (fst (scatterRay pathSegment intersect normal m rng depth)) in
  length (Ray.direction out) = 1
  /\ dot (Ray.direction out) normal
     = (if Rlt_dec cosThetaI 0 then - sqrt k else sqrt k)
  /\ sub (Ray.direction out) (scale (dot (Ray.direction out) normal) normal)
     = scale eta (sub wo (scale cosThetaI normal))
  /\ Ray.origin out = add intersect (scale 0.0001 (Ray.direction out)).
Proof.
  intros Hrefr He Hior Hl Hd wo cosThetaI eta k Hk out.
  assert (Hn : dot normal normal = 1) by now apply length_1_dot.
  assert (Hw : dot wo wo = 1) by now apply normalize_unit.
  destruct (scatterRay_refractive_out pathSegment intersect normal m rng depth
              Hrefr He Hior) as (Hdir & Horg & _).
  fold wo in Hdir, Horg. fold out in Hdir, Horg.
  set (wi := fst (refractedAndFresnel normal wo m)) in *.
  assert (Hwi : dot wi wi = 1
                /\ dot wi normal
                   = (if Rlt_dec cosThetaI 0 then - sqrt k else sqrt k)
                /\ sub wi (scale (dot wi normal) normal)
                   = scale eta (sub wo (scale cosThetaI normal))).
  { unfold wi, refractedAndFresnel. fold cosThetaI.
    unfold k, eta in *.
    destruct (Rlt_dec cosThetaI 0) as [Hlt | Hge]; simpl.
    - apply (refract_success wo normal (1 / Material.indexOfRefraction m) Hw Hn).
      fold cosThetaI. exact Hk.
    - set (ior := Material.indexOfRefraction m) in *.
      assert (Hk' : 0 <= 1 - ior * ior * (1 - dot (neg normal) wo * dot (neg normal) wo)).
      { rewrite dot_neg_l. fold cosThetaI.
        replace (- cosThetaI * - cosThetaI) with (cosThetaI * cosThetaI) by ring.
        exact Hk. }
      destruct (refract_success wo (neg normal) ior Hw
                  (eq_trans (dot_neg_neg normal) Hn) Hk') as (H1 & H2 & H3).
      rewrite dot_neg_l in H2, H3. fold cosThetaI in H2, H3.
      replace (- cosThetaI * - cosThetaI) with (cosThetaI * cosThetaI)
        in H2 by ring.
      rewrite dot_neg_r in H2, H3.
      split; [exact H1|]. split; [lra|].
      rewrite !scale_neg_neg in H3. exact H3. }
  destruct Hwi as (H1 & H2 & H3).
  rewrite Horg, Hdir, (normalize_of_unit wi H1).
  split; [now apply dot_1_length|]. split; [exact H2|]. split; [exact H3 | reflexivity].
Qed.

Lemma enteringGlass_direction_nonzero :
  0 < dot (Ray.direction (PathSegment.ray enteringGlass))
          (Ray.direction (PathSegment.ray enteringGlass)).
Proof. unfold dot. simpl. lra. Qed.

Lemma enteringGlass_cosine :
  dot upNormal (normalize (Ray.direction (PathSegment.ray enteringGlass)))
  = - (3 / 5).
Proof.
  rewrite normalize_of_unit by (unfold dot; simpl; lra).
  unfold dot, upNormal. simpl. lra.
Qed.

Lemma leavingGlass_cosine :
  dot upNormal (normalize (Ray.direction (PathSegment.ray leavingGlass)))
  = 3 / 5.
Proof.
  rewrite normalize_of_unit by (unfold dot; simpl; lra).
  unfold dot, upNormal. simpl. lra.
Qed.

(** X9: refraction on a unit normal.  For a refractive material with index
    [> 0] and [emittance <= 0], a unit normal and an incoming direction that
    is not zero: when the radicand [k] of [refract] is not negative, the new
    direction has unit length, its component along the normal is [- sqrt k]
    for a ray that enters and [sqrt k] for a ray that leaves (it goes on
    through the surface), its tangential part is that of [wo] scaled by
    [eta] (Snell's law), and the origin is moved by 0.0001 along it. *)
Theorem scatterRay_refraction_unit
    (pathSegment : PathSegment.t) (intersect normal : vec3)
    (m : Material.t) (rng : Rng.t) (depth : Z) :
  Material.hasRefractive m = true ->
  Material.emittance m <= 0 ->
  0 < Material.indexOfRefraction m ->
  length normal = 1 ->
  0 < dot (Ray.direction (PathSegment.ray pathSegment))
          (Ray.direction (PathSegment.ray pathSegment)) ->
  let wo := normalize (Ray.direction (PathSegment.ray pathSegment)) in
  let cosThetaI := dot normal wo in
  let eta := if Rlt_dec cosThetaI 0
             then 1 / Material.indexOfRefraction m
             else Material.indexOfRefraction m in
  let k := 1 - eta * eta * (1 - cosThetaI * cosThetaI) in
  0 <= k ->
  let out := PathSegment.ray (fst (scatterRay pathSegment intersect normal m rng depth)) in
  length (Ray.direction out) = 1
  /\ dot (Ray.direction out) normal
     = (if Rlt_dec cosThetaI 0 then - sqrt k else sqrt k)
  /\ sub (Ray.direction out) (scale (dot (Ray.direction out) normal) normal)
     = scale eta (sub wo (scale cosThetaI normal))
  /\ Ray.origin out = add intersect (scale 0.0001 (Ray.direction out)).
Proof. intros Hrefr He Hior Hl Hd wo c eta k Hk. now apply refraction_bounce. Qed.

Lemma scatterRay_refraction_unit_witness :
  length (Ray.direction (PathSegment.ray
            (fst (scatterRay enteringGlass hitPoint upNormal glass zeroEngine 0))))
  = 1.
Proof.
  assert (He : Material.emittance glass <= 0) by (simpl; lra).
  assert (Hi : 0 < Material.indexOfRefraction glass) by (simpl; lra).
  refine (proj1 (scatterRay_refraction_unit
                   enteringGlass hitPoint upNormal glass zeroEngine 0
                   eq_refl He Hi length_upNormal
                   enteringGlass_direction_nonzero _)).
  rewrite enteringGlass_cosine.
  destruct (Rlt_dec (- (3 / 5)) 0) as [_ | H]; [simpl; lra | lra].
Defined.

(** X10: a ray that enters a medium of index [>= 1] is never totally
    reflected: the new direction has unit length and points into the
    surface ([dot direction normal <= 0]). *)
Theorem scatterRay_entering_denser_medium
    (pathSegment : PathSegment.t) (intersect normal : vec3)
    (m : Material.t) (rng : Rng.t) (depth : Z) :
  Material.hasRefractive m = true ->
  Material.emittance m <= 0 ->
  1 <= Material.indexOfRefraction m ->
  length normal = 1 ->
  0 < dot (Ray.direction (PathSegment.ray pathSegment))
          (Ray.direction (PathSegment.ray pathSegment)) ->
  dot normal (normalize (Ray.direction (PathSegment.ray pathSegment))) < 0 ->
  let out := PathSegment.ray (fst (scatterRay pathSegment intersect normal m rng depth)) in
  length (Ray.direction out) = 1 /\ dot (Ray.direction out) normal <= 0.
Proof.
  intros Hrefr He Hior Hl Hd Hcos out.
  assert (Hn : dot normal normal = 1) by now apply length_1_dot.
  assert (Hw := normalize_unit _ Hd).
  assert (Hc := cosine_range normal _ Hn Hw).
  set (ior := Material.indexOfRefraction m) in *.
  set (c := dot normal (normalize (Ray.direction (PathSegment.ray pathSegment)))) in *.
  assert (Hinv : 0 < 1 / ior <= 1).
  { split; [apply Rdiv_lt_0_compat; lra|].
    apply (Rmult_le_reg_r ior); [lra|]. unfold Rdiv.
    rewrite Rmult_assoc, Rinv_l by lra. lra. }
  assert (Hk : 0 <= 1 - 1 / ior * (1 / ior) * (1 - c * c)).
  { assert (0 <= 1 / ior * (1 / ior) <= 1) by nra.
    assert (0 <= 1 - c * c <= 1) by nra. nra. }
  assert (Hi : 0 < ior) by lra.
  assert (Hk' : 0 <= 1 - (if Rlt_dec c 0 then 1 / ior else ior)
                         * (if Rlt_dec c 0 then 1 / ior else ior) * (1 - c * c)).
  { destruct (Rlt_dec c 0) as [_ | H]; [exact Hk | lra]. }
  destruct (refraction_bounce pathSegment intersect normal m rng depth
              Hrefr He Hi Hl Hd Hk') as (H1 & H2 & _).
  fold out in H1, H2. fold c in H2.
  split; [exact H1|]. rewrite H2.
  destruct (Rlt_dec c 0) as [_ | H]; [|lra].
  match goal with |- - sqrt ?a <= 0 => assert (Hs := sqrt_pos a) end. lra.
Qed.

Lemma scatterRay_entering_denser_medium_witness :
  length (Ray.direction (PathSegment.ray
            (fst (scatterRay enteringGlass hitPoint upNormal glass zeroEngine 0))))
  = 1.
Proof.
  assert (He : Material.emittance glass <= 0) by (simpl; lra).
  assert (Hi : 1 <= Material.indexOfRefraction glass) by (simpl; lra).
  assert (Hc : dot upNormal
                 (normalize (Ray.direction (PathSegment.ray enteringGlass))) < 0)
    by (rewrite enteringGlass_cosine; lra).
  exact (proj1 (scatterRay_entering_denser_medium
                  enteringGlass hitPoint upNormal glass zeroEngine 0
                  eq_refl He Hi length_upNormal
                  enteringGlass_direction_nonzero Hc)).
Defined.

(** A negative radicand in [refract] makes the guard of [dielectric] fire. *)
Lemma guard_from_radicand (r c : R) :
  0 < r -> -1 <= c <= 1 ->
  1 - r * r * (1 - c * c) < 0 ->
  r * sqrt (Rmax 0 (1 - clamp c (-1) 1 * clamp c (-1) 1)) >= 1.
Proof.
  intros Hr Hc Hk.
  rewrite clamp_inside by exact Hc.
  destruct (sinThetaI_range c Hc) as [[Hs0 Hs1] Hss].
  set (sI := sqrt (Rmax 0 (1 - c * c))) in *.
  assert (Ht : 1 < (r * sI) * (r * sI)).
  { replace (r * sI * (r * sI)) with (r * r * (sI * sI)) by ring.
    rewrite Hss. lra. }
  assert (H0 : 0 <= r * sI) by (apply Rmult_le_pos; lra).
  destruct (Rle_lt_dec 1 (r * sI)) as [H | H]; [lra | nra].
Qed.

(** X11: total internal reflection on a unit normal.  For a refractive
    material with index [> 0] and [emittance <= 0], a unit normal and an
    incoming direction that is not zero: when the radicand [k] of [refract]
    is negative, [dielectric] returns exactly 1, [refract] returns the zero
    vector and that vector is kept: the direction written back has no unit
    length, the new origin is the hit point itself and the colour is
    multiplied by the specular colour alone. *)
Theorem scatterRay_total_internal_reflection
    (pathSegment : PathSegment.t) (intersect normal : vec3)
    (m : Material.t) (rng : Rng.t) (depth : Z) :
  Material.hasRefractive m = true ->
  Material.emittance m <= 0 ->
  0 < Material.indexOfRefraction m ->
  length normal = 1 ->
  0 < dot (Ray.direction (PathSegment.ray pathSegment))
          (Ray.direction (PathSegment.ray pathSegment)) ->
  let wo := normalize (Ray.direction (PathSegment.ray pathSegment)) in
  let cosThetaI := dot normal wo in
  let eta := if Rlt_dec cosThetaI 0
             then 1 / Material.indexOfRefraction m
             else Material.indexOfRefraction m in
  let k := 1 - eta * eta * (1 - cosThetaI * cosThetaI) in
  k < 0 ->
  let out := fst (scatterRay pathSegment intersect normal m rng depth) in
  snd (refractedAndFresnel normal wo m) = 1
  /\ fst (refractedAndFresnel normal wo m) = splat 0
  /\ length (Ray.direction (PathSegment.ray out)) <> 1
  /\ Ray.origin (PathSegment.ray out) = intersect
  /\ PathSegment.color out
     = mul (PathSegment.color pathSegment) (Specular.color (Material.specular m)).
Proof.
  intros Hrefr He Hior Hl Hd wo cosThetaI eta k Hk out.
  assert (Hn : dot normal normal = 1) by now apply length_1_dot.
  assert (Hw : dot wo wo = 1) by now apply normalize_unit.
  assert (Hc := cosine_range normal wo Hn Hw). fold cosThetaI in Hc.
  set (ior := Material.indexOfRefraction m) in *.
  assert (Hinv : 0 < 1 / ior) by (apply Rdiv_lt_0_compat; lra).
  assert (Hrf : refractedAndFresnel normal wo m = (splat 0, 1)).
  { unfold refractedAndFresnel. fold cosThetaI. fold ior.
    unfold k, eta in Hk.
    destruct (Rlt_dec cosThetaI 0) as [Hlt | Hge]; f_equal.
    - unfold refract. fold cosThetaI.
      destruct (Rge_dec _ 0) as [H | _]; [lra | reflexivity].
    - apply dielectric_guard.
      apply guard_from_radicand; [exact Hinv | lra |].
      replace (- cosThetaI * - cosThetaI) with (cosThetaI * cosThetaI) by ring.
      exact Hk.
    - unfold refract. rewrite dot_neg_l. fold cosThetaI.
      replace (- cosThetaI * - cosThetaI) with (cosThetaI * cosThetaI) by ring.
      destruct (Rge_dec _ 0) as [H | _]; [lra | reflexivity].
    - apply dielectric_guard.
      replace (ior / 1) with ior by field.
      apply guard_from_radicand; [exact Hior | lra | exact Hk]. }
  destruct (scatterRay_refractive_out pathSegment intersect normal m rng depth
              Hrefr He Hior) as (Hdir & Horg & Hcol).
  fold wo in Hdir, Horg, Hcol. fold out in Hdir, Horg, Hcol.
  rewrite Hrf in *. simpl in Hdir, Horg, Hcol.
  split; [reflexivity|]. split; [reflexivity|].
  split; [|split].
  - rewrite Hdir, normalize_zero, length_zero. lra.
  - rewrite Horg. apply add_scale_zero.
  - rewrite Hcol.
    replace ((1 - 1) / Rabs (dot normal wo)) with 0 by (unfold Rdiv; ring).
    rewrite (Rmax_left 1 0) by lra. now rewrite scale_1.
Qed.

Lemma scatterRay_total_internal_reflection_witness :
  Ray.origin (PathSegment.ray
    (fst (scatterRay leavingGlass hitPoint upNormal glass zeroEngine 0)))
  = hitPoint.
Proof.
  assert (He : Material.emittance glass <= 0) by (simpl; lra).
  assert (Hi : 0 < Material.indexOfRefraction glass) by (simpl; lra).
  refine (proj1 (proj2 (proj2 (proj2 (scatterRay_total_internal_reflection
                   leavingGlass hitPoint upNormal glass zeroEngine 0
                   eq_refl He Hi length_upNormal
                   leavingGlass_direction_nonzero _))))).
  rewrite leavingGlass_cosine.
  destruct (Rlt_dec (3 / 5) 0) as [H | _]; [lra | simpl; lra].
Defined.

(** ** scatterRay: what every call keeps *)

Lemma mul_scale_nonneg (a b : vec3) (w : R) :
  nonneg a -> nonneg b -> 0 <= w -> nonneg (mul a (scale w b)).
Proof.
  intros (Hax & Hay & Haz) (Hbx & Hby & Hbz) Hw.
  unfold nonneg, mul, scale. simpl.
  repeat split; apply Rmult_le_pos; try assumption; apply Rmult_le_pos; assumption.
Qed.

Lemma Rmax_1_nonneg (t : R) : 0 <= Rmax 1 t.
Proof. assert (H := Rmax_l 1 t). lra. Qed.

(** X12: the colour stays non-negative.  Whatever the material, the normal,
    the ray and the engine are, if the colour of the path and the specular
    colour of the material have no negative component then the colour after
    the call has none. *)
Theorem scatterRay_color_nonneg
    (pathSegment : PathSegment.t) (intersect normal : vec3)
    (m : Material.t) (rng : Rng.t) (depth : Z) :
  nonneg (PathSegment.color pathSegment) ->
  nonneg (Specular.color (Material.specular m)) ->
  nonneg (PathSegment.color (fst (scatterRay pathSegment intersect normal m rng depth))).
Proof.
  intros Hc Hs. unfold scatterRay.
  destruct (Rgt_dec (Material.emittance m) 0) as [_ | _]; [exact Hc|].
  unfold scatterBranch.
  destruct (Material.hasRefractive m).
  - destruct (refractedAndFresnel _ _ m) as [wi f].
    destruct (Rgt_dec f 1); simpl;
      apply mul_scale_nonneg; auto using Rmax_1_nonneg.
  - destruct (Material.hasReflective m).
    + simpl. rewrite <- (scale_1 (Specular.color (Material.specular m))).
      apply mul_scale_nonneg; auto; lra.
    + destruct (calculateRandomDirectionInHemisphere normal rng) as [wi rng'].
      exact Hc.
Qed.

Lemma scatterRay_color_nonneg_witness :
  nonneg (PathSegment.color
            (fst (scatterRay leavingGlass hitPoint upNormal glass zeroEngine 0))).
Proof.
  apply (scatterRay_color_nonneg leavingGlass hitPoint upNormal glass zeroEngine 0);
    unfold nonneg; simpl; lra.
Defined.

(** X13: what [scatterRay] never touches.  The pixel index and the number
    of remaining bounces are never changed; the flag [dead] is never changed
    for a material that does not emit; the random engine is left as it was
    for an emissive, refractive or mirror material, and advanced by exactly
    two draws for a diffuse one. *)
Theorem scatterRay_frame
    (pathSegment : PathSegment.t) (intersect normal : vec3)
    (m : Material.t) (rng : Rng.t) (depth : Z) :
  let out := scatterRay pathSegment intersect normal m rng depth in
  PathSegment.pixelIndex (fst out) = PathSegment.pixelIndex pathSegment
  /\ PathSegment.remainingBounces (fst out)
     = PathSegment.remainingBounces pathSegment
  /\ (Material.emittance m <= 0 ->
      PathSegment.dead (fst out) = PathSegment.dead pathSegment)
  /\ (Material.emittance m > 0 \/ Material.hasRefractive m = true
      \/ Material.hasReflective m = true ->
      snd out = rng)
  /\ (Material.emittance m <= 0 -> Material.hasRefractive m = false ->
      Material.hasReflective m = false ->
      snd out = Rng.Build (Rng.draws rng) (S (S (Rng.consumed rng)))).
Proof.
  intros out. unfold out, scatterRay.
  destruct (Rgt_dec (Material.emittance m) 0) as [Hp | Hn].
  - simpl. repeat split; intros; try reflexivity; lra.
  - unfold scatterBranch.
    destruct (Material.hasRefractive m) eqn:Hrefr.
    + destruct (refractedAndFresnel _ _ m) as [wi f].
      destruct (Rgt_dec f 1); simpl; repeat split; intros; try reflexivity;
        discriminate.
    + destruct (Material.hasReflective m) eqn:Hrefl.
      * simpl. repeat split; intros; try reflexivity; discriminate.
      * unfold calculateRandomDirectionInHemisphere, Rng.u01. simpl.
        repeat split; intros; try reflexivity.
        destruct H as [H | [H | H]]; [lra | discriminate | discriminate].
Qed.

Lemma scatterRay_frame_witness :
  snd (scatterRay leavingGlass hitPoint upNormal matte zeroEngine 0)
  = Rng.Build (Rng.draws zeroEngine) (S (S (Rng.consumed zeroEngine))).
Proof.
  assert (He : Material.emittance matte <= 0) by (simpl; lra).
  exact (proj2 (proj2 (proj2 (proj2
           (scatterRay_frame leavingGlass hitPoint upNormal matte zeroEngine 0))))
           He eq_refl eq_refl).
Defined.

(** ** The sampler in its own frame, and the diffuse bounce *)

Lemma dot_sym (a b : vec3) : dot a b = dot b a.
Proof. unfold dot. ring. Qed.

Lemma dot_combination_any (a b c v : vec3) (p q r : R) :
  dot (add (add (scale p a) (scale q b)) (scale r c)) v
  = p * dot a v + q * dot b v + r * dot c v.
Proof. unfold dot, add, scale. simpl. ring. Qed.

(** The sample for a unit normal and a first draw in [0,1]: its length and
    its three components in the frame of the sampler. *)
Lemma sample_facts (normal : vec3) (rng : Rng.t) :
  dot normal normal = 1 ->
  let u1 := Rng.draws rng (Rng.consumed rng) in
  let u2 := Rng.draws rng (S (Rng.consumed rng)) in
  0 <= u1 <= 1 ->
  let d := fst (calculateRandomDirectionInHemisphere normal rng) in
  dot d d = 1
  /\ dot d normal = sqrt u1
  /\ dot d (perpendicularDirection1 normal) = cos (u2 * TWO_PI) * sqrt (1 - u1)
  /\ dot d (perpendicularDirection2 normal) = sin (u2 * TWO_PI) * sqrt (1 - u1).
Proof.
  intros Hn u1 u2 Hu1 d.
  destruct (sampler_frame normal Hn) as (H11 & H22 & Hn1 & Hn2 & H12 & _).
  unfold d, calculateRandomDirectionInHemisphere, Rng.u01. simpl.
  fold u1. fold u2.
  assert (Hup : sqrt u1 * sqrt u1 = u1) by (apply sqrt_sqrt; lra).
  rewrite Hup.
  set (up := sqrt u1) in *.
  set (over := sqrt (1 - u1)).
  set (around := u2 * TWO_PI).
  assert (Hover : over * over = 1 - u1) by (apply sqrt_sqrt; lra).
  assert (Htrig : sin around * sin around + cos around * cos around = 1).
  { generalize (sin2_cos2 around). unfold Rsqr. tauto. }
  split; [|split; [|split]].
  - rewrite dot_combination, Hn, H11, H22, Hn1, Hn2, H12.
    transitivity (up * up
                  + (sin around * sin around + cos around * cos around)
                    * (over * over)); [ring|].
    rewrite Htrig, Hup, Hover. ring.
  - rewrite dot_combination_any, Hn, (dot_sym _ normal), Hn1,
      (dot_sym _ normal), Hn2. ring.
  - rewrite dot_combination_any, Hn1, H11, (dot_sym _ (perpendicularDirection1 normal)), H12.
    ring.
  - rewrite dot_combination_any, Hn2, H12, H22. ring.
Qed.

(** X14: the sample in the frame of the sampler.  For a unit normal and two
    draws in [0,1), the three directions [normal], [t1], [t2] are pairwise
    orthogonal, [t2] is [cross normal t1] itself, and the sample has the
    components [sqrt u1], [cos(u2 TWO_PI) sqrt(1 - u1)] and
    [sin(u2 TWO_PI) sqrt(1 - u1)] along them. *)
Theorem calculateRandomDirectionInHemisphere_components
    (normal : vec3) (rng : Rng.t) :
  length normal = 1 ->
  let u1 := Rng.draws rng (Rng.consumed rng) in
  let u2 := Rng.draws rng (S (Rng.consumed rng)) in
  0 <= u1 < 1 ->
  0 <= u2 < 1 ->
  let d := fst (calculateRandomDirectionInHemisphere normal rng) in
  let t1 := perpendicularDirection1 normal in
  let t2 := perpendicularDirection2 normal in
  dot normal t1 = 0 /\ dot normal t2 = 0 /\ dot t1 t2 = 0
  /\ t2 = cross normal t1
  /\ dot d normal = sqrt u1
  /\ dot d t1 = cos (u2 * TWO_PI) * sqrt (1 - u1)
  /\ dot d t2 = sin (u2 * TWO_PI) * sqrt (1 - u1).
Proof.
  intros Hl u1 u2 Hu1 Hu2 d t1 t2.
  assert (Hn : dot normal normal = 1) by now apply length_1_dot.
  destruct (sampler_frame normal Hn) as (_ & _ & Hn1 & Hn2 & H12 & Hc).
  assert (Hu : 0 <= u1 <= 1) by lra.
  destruct (sample_facts normal rng Hn Hu) as (_ & Hd & Hd1 & Hd2).
  repeat split; try assumption.
  unfold t2, perpendicularDirection2. now apply normalize_of_unit.
Qed.

Lemma calculateRandomDirectionInHemisphere_components_witness :
  dot (Vec3 0 0 1) (perpendicularDirection1 (Vec3 0 0 1)) = 0.
Proof.
  assert (H0 : 0 <= Rng.draws zeroEngine (Rng.consumed zeroEngine) < 1)
    by (simpl; lra).
  assert (H1 : 0 <= Rng.draws zeroEngine (S (Rng.consumed zeroEngine)) < 1)
    by (simpl; lra).
  exact (proj1 (calculateRandomDirectionInHemisphere_components
                  (Vec3 0 0 1) zeroEngine length_0_0_1 H0 H1)).
Defined.

(** X15: a diffuse bounce on a unit normal.  For a diffuse material
    ([emittance <= 0], neither flag set), a unit normal and a first draw in
    [0,1): the new direction is the sample itself, it has unit length and
    never points below the surface ([dot direction normal = sqrt u1 >= 0]),
    and the new origin is the hit point moved by 0.0001 along it. *)
Theorem scatterRay_diffuse_unit
    (pathSegment : PathSegment.t) (intersect normal : vec3)
    (m : Material.t) (rng : Rng.t) (depth : Z) :
  Material.hasReflective m = false ->
  Material.hasRefractive m = false ->
  Material.emittance m <= 0 ->
  length normal = 1 ->
  0 <= Rng.draws rng (Rng.consumed rng) < 1 ->
  let out := PathSegment.ray (fst (scatterRay pathSegment intersect normal m rng depth)) in
  Ray.direction out = fst (calculateRandomDirectionInHemisphere normal rng)
  /\ length (Ray.direction out) = 1
  /\ dot (Ray.direction out) normal = sqrt (Rng.draws rng (Rng.consumed rng))
  /\ 0 <= dot (Ray.direction out) normal
  /\ Ray.origin out = add intersect (scale 0.0001 (Ray.direction out)).
Proof.
  intros Hrefl Hrefr He Hl Hu out.
  assert (Hn : dot normal normal = 1) by now apply length_1_dot.
  assert (Hu' : 0 <= Rng.draws rng (Rng.consumed rng) <= 1) by lra.
  destruct (sample_facts normal rng Hn Hu') as (Hd & Hdn & _).
  assert (Hout : out = Ray.Build
                   (add intersect
                      (scale 0.0001 (fst (calculateRandomDirectionInHemisphere normal rng))))
                   (fst (calculateRandomDirectionInHemisphere normal rng))).
  { unfold out, scatterRay.
    destruct (Rgt_dec (Material.emittance m) 0) as [Hp | _]; [lra|].
    unfold scatterBranch. rewrite Hrefr, Hrefl.
    destruct (calculateRandomDirectionInHemisphere normal rng) as [wi rng'].
    simpl in *. now rewrite (normalize_of_unit wi Hd). }
  rewrite Hout. cbn [Ray.direction Ray.origin].
  split; [reflexivity|]. split; [now apply dot_1_length|].
  split; [exact Hdn|]. split; [rewrite Hdn; apply sqrt_pos | reflexivity].
Qed.

Lemma scatterRay_diffuse_unit_witness :
  length (Ray.direction (PathSegment.ray
            (fst (scatterRay leavingGlass hitPoint upNormal matte zeroEngine 0))))
  = 1.
Proof.
  assert (He : Material.emittance matte <= 0) by (simpl; lra).
  assert (H0 : 0 <= Rng.draws zeroEngine (Rng.consumed zeroEngine) < 1)
    by (simpl; lra).
  exact (proj1 (proj2 (scatterRay_diffuse_unit
                         leavingGlass hitPoint upNormal matte zeroEngine 0
                         eq_refl eq_refl He length_upNormal H0))).
Defined.

(** ** The Fresnel term and the radicand of refract agree *)

Lemma radicand_guard_iff (r c : R) :
  0 < r -> -1 <= c <= 1 ->
  (r * sqrt (Rmax 0 (1 - clamp c (-1) 1 * clamp c (-1) 1)) >= 1
   <-> 1 - r * r * (1 - c * c) <= 0).
Proof.
  intros Hr Hc.
  rewrite clamp_inside by exact Hc.
  destruct (sinThetaI_range c Hc) as [[Hs0 Hs1] Hss].
  set (sI := sqrt (Rmax 0 (1 - c * c))) in *.
  assert (Ht : (r * sI) * (r * sI) = r * r * (1 - c * c))
    by (rewrite <- Hss; ring).
  assert (H0 : 0 <= r * sI) by (apply Rmult_le_pos; lra).
  split; intros H.
  - nra.
  - destruct (Rle_lt_dec 1 (r * sI)) as [H1 | H1]; [lra | nra].
Qed.

(** X16: [dielectric] and [refract] agree in [scatterRay].  For a unit
    normal, an incoming direction that is not zero and not tangent to the
    surface, and an index [> 0]: the Fresnel term is exactly 1 if and only
    if the radicand [k] of [refract] is [<= 0], and strictly below 1 when
    [refract] succeeds with [k > 0]. *)
Theorem refractedAndFresnel_one_iff_radicand
    (pathSegment : PathSegment.t) (normal : vec3) (m : Material.t) :
  0 < Material.indexOfRefraction m ->
  length normal = 1 ->
  0 < dot (Ray.direction (PathSegment.ray pathSegment))
          (Ray.direction (PathSegment.ray pathSegment)) ->
  let wo := normalize (Ray.direction (PathSegment.ray pathSegment)) in
  let cosThetaI := dot normal wo in
  let eta := if Rlt_dec cosThetaI 0
             then 1 / Material.indexOfRefraction m
             else Material.indexOfRefraction m in
  let k := 1 - eta * eta * (1 - cosThetaI * cosThetaI) in
  cosThetaI <> 0 ->
  (snd (refractedAndFresnel normal wo m) = 1 <-> k <= 0)
  /\ (0 < k -> snd (refractedAndFresnel normal wo m) < 1).
Proof.
  intros Hior Hl Hd wo cosThetaI eta k Hc0.
  assert (Hn : dot normal normal = 1) by now apply length_1_dot.
  assert (Hw : dot wo wo = 1) by now apply normalize_unit.
  assert (Hc := cosine_range normal wo Hn Hw). fold cosThetaI in Hc.
  set (ior := Material.indexOfRefraction m) in *.
  assert (Hinv : 0 < 1 / ior) by (apply Rdiv_lt_0_compat; lra).
  assert (Hiff : snd (refractedAndFresnel normal wo m) = 1 <-> k <= 0).
  { unfold refractedAndFresnel, k, eta. fold cosThetaI. fold ior.
    destruct (Rlt_dec cosThetaI 0) as [Hlt | Hge]; simpl.
    - assert (Hp : 0 < - cosThetaI) by lra.
      assert (H1 : 0 < 1) by lra.
      rewrite (proj1 (dielectric_one_iff_guard (- cosThetaI) 1 ior Hp H1 Hior)).
      rewrite radicand_guard_iff by (lra || assumption).
      replace (- cosThetaI * - cosThetaI) with (cosThetaI * cosThetaI) by ring.
      reflexivity.
    - assert (Hp : 0 < cosThetaI) by lra.
      assert (H1 : 0 < 1) by lra.
      rewrite (proj1 (dielectric_one_iff_guard cosThetaI ior 1 Hp Hior H1)).
      replace (ior / 1) with ior by field.
      rewrite radicand_guard_iff by (lra || assumption).
      reflexivity. }
  split; [exact Hiff|].
  intros Hk.
  assert (Hle : snd (refractedAndFresnel normal wo m) <= 1)
    by (apply refractedAndFresnel_le_1; exact Hior).
  destruct (Req_dec (snd (refractedAndFresnel normal wo m)) 1) as [E | E];
    [apply Hiff in E; lra | lra].
Qed.

Lemma refractedAndFresnel_one_iff_radicand_witness :
  snd (refractedAndFresnel upNormal
         (normalize (Ray.direction (PathSegment.ray enteringGlass))) glass) < 1.
Proof.
  assert (Hi : 0 < Material.indexOfRefraction glass) by (simpl; lra).
  assert (Hc : dot upNormal
                 (normalize (Ray.direction (PathSegment.ray enteringGlass))) <> 0)
    by (rewrite enteringGlass_cosine; lra).
  refine (proj2 (refractedAndFresnel_one_iff_radicand
                   enteringGlass upNormal glass Hi length_upNormal
                   enteringGlass_direction_nonzero Hc) _).
  rewrite enteringGlass_cosine.
  destruct (Rlt_dec (- (3 / 5)) 0) as [_ | H]; [simpl; lra | lra].
Defined.

(** X17: the refractive weight never darkens below the specular tint.  For
    a refractive material with index [> 0] and [emittance <= 0], and colours
    without negative components, each component of the new colour is at
    least the component of [color * specular.color]. *)
Theorem scatterRay_refractive_weight
    (pathSegment : PathSegment.t) (intersect normal : vec3)
    (m : Material.t) (rng : Rng.t) (depth : Z) :
  Material.hasRefractive m = true ->
  Material.emittance m <= 0 ->
  0 < Material.indexOfRefraction m ->
  nonneg (PathSegment.color pathSegment) ->
  nonneg (Specular.color (Material.specular m)) ->
  let out := PathSegment.color (fst (scatterRay pathSegment intersect normal m rng depth)) in
  let tint := mul (PathSegment.color pathSegment)
                  (Specular.color (Material.specular m)) in
  x tint <= x out /\ y tint <= y out /\ z tint <= z out.
Proof.
  intros Hrefr He Hior (Hcx & Hcy & Hcz) (Hsx & Hsy & Hsz) out tint.
  destruct (scatterRay_refractive_out pathSegment intersect normal m rng depth
              Hrefr He Hior) as (_ & _ & Hcol).
  unfold out. rewrite Hcol. unfold tint, mul, scale. simpl.
  match goal with |- context [Rmax 1 ?t] =>
    assert (Hw := Rmax_l 1 t); set (w := Rmax 1 t) in * end.
  repeat split; (apply Rmult_le_compat_l; [assumption | nra]).
Qed.

Lemma scatterRay_refractive_weight_witness :
  x (mul (PathSegment.color enteringGlass) (Specular.color (Material.specular glass)))
  <= x (PathSegment.color
          (fst (scatterRay enteringGlass hitPoint upNormal glass zeroEngine 0))).
Proof.
  assert (He : Material.emittance glass <= 0) by (simpl; lra).
  assert (Hi : 0 < Material.indexOfRefraction glass) by (simpl; lra).
  apply (scatterRay_refractive_weight
           enteringGlass hitPoint upNormal glass zeroEngine 0 eq_refl He Hi);
    unfold nonneg; simpl; lra.
Defined.
